(** * Citizen: the object-lifetime registry of lsst::daf::base

    A shallow embedding of [src/src/Citizen.cc] and
    [include/lsst/daf/base/Citizen.h].

    The process-wide statics of class [Citizen] (the two tables, the two
    watch ids, the three callback slots), the two thread-private cells and
    the [Citizen] subobjects themselves are gathered in one [State] that
    every operation threads explicitly.  A caller is identified by its
    [pthread_t]; operations are taken one at a time, so the reader/writer
    lock that brackets them is not part of the model. *)

From stdpp Require Import base numbers option list sorting gmap strings.

Local Open Scope N_scope.

#[local] Set Warnings "-clear-no-such-hyp".


(** ** Scalars *)

(** [typedef unsigned long memId]: 64 bits on the LP64 targets of the
    package; arithmetic on it wraps. *)
Abbreviation memId := N (only parsing).
Abbreviation pthread_t := N (only parsing).
(** A [Citizen const*], used only as a key. *)
Abbreviation addr := N (only parsing).

Definition memId_modulus : N := 2 ^ 64.
Definition memId_wrap (n : N) : memId := n mod memId_modulus.

(** Conversion to the 32-bit [int] that holds [_sentinel]. *)
Definition to_int (z : Z) : Z := ((z + 2 ^ 31) mod 2 ^ 32 - 2 ^ 31)%Z.
Definition INT_MAX : Z := (2 ^ 31 - 1)%Z.

(** [enum { magicSentinel = 0xdeadbeef }] *)
Definition magicSentinel : Z := 0xdeadbeef%Z.
(** The pattern written by the destructor, [0x0000dead]. *)
Definition deadSentinel : Z := 0x0000dead%Z.

(** ** Objects and tables *)

Record Citizen : Type := mkCitizen {
  _sentinel : Z;
  _CitizenId : memId;
  _typeName : string
}.

Definition set_sentinel (z : Z) (o : Citizen) : Citizen :=
  mkCitizen z (_CitizenId o) (_typeName o).

(** [typedef std::pair<memId, pthread_t> CitizenInfo;]
    [typedef std::map<Citizen const*, CitizenInfo> table;] *)
Abbreviation CitizenInfo := (memId * pthread_t)%type (only parsing).
Abbreviation table := (gmap addr CitizenInfo) (only parsing).

(** [m[k]]: a reference to the mapped value, value-initialised and
    inserted when [k] is absent. *)
Definition table_index (m : table) (k : addr) : CitizenInfo * table :=
  match m !! k with
  | Some v => (v, m)
  | None => ((0, 0), <[k := (0, 0)]> m)
  end.

(** [m.erase(k)]: the number of elements removed and the map left. *)
Definition table_erase (m : table) (k : addr) : N * table :=
  (match m !! k with Some _ => 1 | None => 0 end, delete k m).

(** [for (cur = m.begin(); cur != m.end(); cur++)]: keys in ascending
    order. *)
Definition table_iter (m : table) : list addr :=
  merge_sort N.le (map_to_list m).*1.

(** ** Callbacks

    A callback is a function pointer; all the registry sees of a call is
    whether it returns (and which delta) or leaves by an exception, as
    [defaultCorruptionCallback] does. *)
Inductive CallbackResult : Type :=
  | Returns (delta : memId)
  | Throws.

Global Instance CallbackResult_eq_dec : EqDecision CallbackResult.
Proof. solve_decision. Defined.

Abbreviation memNewCallback := (memId → CallbackResult) (only parsing).
Abbreviation memCallback := (addr → Citizen → CallbackResult) (only parsing).

(** One entry per callback invocation, oldest first. *)
Inductive Hook : Type :=
  | NewHook (cid : memId)
  | DeleteHook (ptr : addr)
  | CorruptionHook (ptr : addr).

Global Instance Hook_eq_dec : EqDecision Hook.
Proof. solve_decision. Defined.

(** ** Thread-private cells

    [ThreadPrivate<T>]: a [pthread_key_t] under which each thread finds
    its own [T], created from [_init] by the first [getRef] of that
    thread. *)
Record ThreadPrivate (T : Type) : Type := mkThreadPrivate {
  _init : T;
  _key : gmap pthread_t T
}.
Arguments mkThreadPrivate {T} _ _.
Arguments _init {T} _.
Arguments _key {T} _.

Definition getRef {T} (tp : ThreadPrivate T) (t : pthread_t)
  : T * ThreadPrivate T :=
  match _key tp !! t with
  | Some d => (d, tp)
  | None => (_init tp, mkThreadPrivate (_init tp) (<[t := _init tp]> (_key tp)))
  end.

(** Assignment through the reference [getRef] returned. *)
Definition putRef {T} (tp : ThreadPrivate T) (t : pthread_t) (v : T)
  : ThreadPrivate T :=
  mkThreadPrivate (_init tp) (<[t := v]> (_key tp)).

(** What the next [getRef] of thread [t] reads. *)
Definition peekRef {T} (tp : ThreadPrivate T) (t : pthread_t) : T :=
  default (_init tp) (_key tp !! t).

(** ** The state *)

Record State : Type := mkState {
  perThreadId : ThreadPrivate memId;
  perThreadPersistFlag : ThreadPrivate bool;
  _activeCitizens : gmap addr CitizenInfo;
  _persistentCitizens : gmap addr CitizenInfo;
  _newId : memId;
  _deleteId : memId;
  _newCallback : memId → CallbackResult;
  _deleteCallback : addr → Citizen → CallbackResult;
  _corruptionCallback : addr → Citizen → CallbackResult;
  (** the [Citizen] subobjects whose lifetime has begun and not ended *)
  objects : gmap addr Citizen;
  (** the callbacks invoked so far *)
  fired : list Hook
}.

Definition defaultNewCallback : memId → CallbackResult := λ _, Returns 0.
Definition defaultDeleteCallback : addr → Citizen → CallbackResult :=
  λ _ _, Returns 0.
Definition defaultCorruptionCallback : addr → Citizen → CallbackResult :=
  λ _ _, Throws.

(** The static initialisers at the end of Citizen.cc. *)
Definition initial : State := {|
  perThreadId := mkThreadPrivate 1 ∅;
  perThreadPersistFlag := mkThreadPrivate false ∅;
  _activeCitizens := ∅;
  _persistentCitizens := ∅;
  _newId := 0;
  _deleteId := 0;
  _newCallback := defaultNewCallback;
  _deleteCallback := defaultDeleteCallback;
  _corruptionCallback := defaultCorruptionCallback;
  objects := ∅;
  fired := []
|}.

Definition set_perThreadId (v : ThreadPrivate memId) (s : State) : State :=
  mkState v (perThreadPersistFlag s) (_activeCitizens s)
    (_persistentCitizens s) (_newId s) (_deleteId s) (_newCallback s)
    (_deleteCallback s) (_corruptionCallback s) (objects s) (fired s).
Definition set_perThreadPersistFlag (v : ThreadPrivate bool) (s : State)
  : State :=
  mkState (perThreadId s) v (_activeCitizens s)
    (_persistentCitizens s) (_newId s) (_deleteId s) (_newCallback s)
    (_deleteCallback s) (_corruptionCallback s) (objects s) (fired s).
Definition set_activeCitizens (v : gmap addr CitizenInfo) (s : State)
  : State :=
  mkState (perThreadId s) (perThreadPersistFlag s) v
    (_persistentCitizens s) (_newId s) (_deleteId s) (_newCallback s)
    (_deleteCallback s) (_corruptionCallback s) (objects s) (fired s).
Definition set_persistentCitizens (v : gmap addr CitizenInfo) (s : State)
  : State :=
  mkState (perThreadId s) (perThreadPersistFlag s) (_activeCitizens s)
    v (_newId s) (_deleteId s) (_newCallback s)
    (_deleteCallback s) (_corruptionCallback s) (objects s) (fired s).
Definition set_newId (v : memId) (s : State) : State :=
  mkState (perThreadId s) (perThreadPersistFlag s) (_activeCitizens s)
    (_persistentCitizens s) v (_deleteId s) (_newCallback s)
    (_deleteCallback s) (_corruptionCallback s) (objects s) (fired s).
Definition set_deleteId (v : memId) (s : State) : State :=
  mkState (perThreadId s) (perThreadPersistFlag s) (_activeCitizens s)
    (_persistentCitizens s) (_newId s) v (_newCallback s)
    (_deleteCallback s) (_corruptionCallback s) (objects s) (fired s).
Definition set_newCallback (v : memId → CallbackResult) (s : State)
  : State :=
  mkState (perThreadId s) (perThreadPersistFlag s) (_activeCitizens s)
    (_persistentCitizens s) (_newId s) (_deleteId s) v
    (_deleteCallback s) (_corruptionCallback s) (objects s) (fired s).
Definition set_deleteCallback (v : addr → Citizen → CallbackResult)
  (s : State) : State :=
  mkState (perThreadId s) (perThreadPersistFlag s) (_activeCitizens s)
    (_persistentCitizens s) (_newId s) (_deleteId s) (_newCallback s)
    v (_corruptionCallback s) (objects s) (fired s).
Definition set_corruptionCallback (v : addr → Citizen → CallbackResult)
  (s : State) : State :=
  mkState (perThreadId s) (perThreadPersistFlag s) (_activeCitizens s)
    (_persistentCitizens s) (_newId s) (_deleteId s) (_newCallback s)
    (_deleteCallback s) v (objects s) (fired s).
Definition set_objects (v : gmap addr Citizen) (s : State) : State :=
  mkState (perThreadId s) (perThreadPersistFlag s) (_activeCitizens s)
    (_persistentCitizens s) (_newId s) (_deleteId s) (_newCallback s)
    (_deleteCallback s) (_corruptionCallback s) v (fired s).
Definition set_fired (v : list Hook) (s : State) : State :=
  mkState (perThreadId s) (perThreadPersistFlag s) (_activeCitizens s)
    (_persistentCitizens s) (_newId s) (_deleteId s) (_newCallback s)
    (_deleteCallback s) (_corruptionCallback s) (objects s) v.

(** ** Computations

    An operation either returns a value, leaves by an exception (thrown by
    a callback), or has no defined behaviour (it reads through a pointer
    to no live [Citizen], or overflows an [int]). *)
Inductive Res (A : Type) : Type :=
  | Val (a : A) (s : State)
  | Throw (s : State)
  | Undefined.
Arguments Val {A} _ _.
Arguments Throw {A} _.
Arguments Undefined {A}.

Definition M (A : Type) : Type := State → Res A.

Definition ret {A} (a : A) : M A := λ s, Val a s.
Definition bind {A B} (m : M A) (k : A → M B) : M B :=
  λ s, match m s with
       | Val a s' => k a s'
       | Throw s' => Throw s'
       | Undefined => Undefined
       end.

Declare Scope cit_scope.
Delimit Scope cit_scope with cit.
Notation "x <- c ;; k" := (bind c (λ x, k))
  (at level 100, c at next level, right associativity) : cit_scope.
Notation "c ;;; k" := (bind c (λ _, k))
  (at level 100, right associativity) : cit_scope.
Local Open Scope cit_scope.

Definition gets {A} (f : State → A) : M A := λ s, Val (f s) s.
Definition modify (f : State → State) : M unit := λ s, Val () (f s).
Definition throw {A} : M A := λ s, Throw s.

(** The state an operation leaves behind, however it ended. *)
Definition final {A} (r : Res A) : option State :=
  match r with
  | Val _ s | Throw s => Some s
  | Undefined => None
  end.

(** Invoke a callback: note the invocation, then return its delta or
    propagate its exception. *)
Definition invoke (h : Hook) (r : CallbackResult) : M memId :=
  modify (λ s, set_fired (fired s ++ [h]) s) ;;;
  match r with
  | Returns d => ret d
  | Throws => throw
  end.

(** [*p] for a [Citizen const* p]. *)
Definition deref (p : addr) : M Citizen :=
  λ s, match objects s !! p with
       | Some o => Val o s
       | None => Undefined
       end.

(** Overwrite the [Citizen] at [p]. *)
Definition store (p : addr) (o : Citizen) : M unit :=
  modify (λ s, set_objects (<[p := o]> (objects s)) s).

(** ** Identity allocation *)

(** [_nextMemId]: [return perThreadId.getRef();] *)
Definition _nextMemId (t : pthread_t) : M memId :=
  λ s, let '(v, tp) := getRef (perThreadId s) t in
       Val v (set_perThreadId tp s).

(** [getNextMemId]: [return _nextMemId();] *)
Definition getNextMemId (t : pthread_t) : M memId := _nextMemId t.

(** [_nextMemIdAndIncrement]: [return perThreadId.getRef()++;] *)
Definition _nextMemIdAndIncrement (t : pthread_t) : M memId :=
  λ s, let '(v, tp) := getRef (perThreadId s) t in
       Val v (set_perThreadId (putRef tp t (memId_wrap (v + 1))) s).

(** [_shouldPersistCitizens]: [return perThreadPersistFlag.getRef();],
    read as a value. *)
Definition _shouldPersistCitizens (t : pthread_t) : M bool :=
  λ s, let '(v, tp) := getRef (perThreadPersistFlag s) t in
       Val v (set_perThreadPersistFlag tp s).

(** [_shouldPersistCitizens() = b] *)
Definition assign_shouldPersistCitizens (t : pthread_t) (b : bool) : M unit :=
  λ s, let '(_, tp) := getRef (perThreadPersistFlag s) t in
       Val () (set_perThreadPersistFlag (putRef tp t b) s).

(** [PersistentCitizenScope::PersistentCitizenScope] *)
Definition PersistentCitizenScope_ctor (t : pthread_t) : M unit :=
  assign_shouldPersistCitizens t true.

(** [PersistentCitizenScope::~PersistentCitizenScope] *)
Definition PersistentCitizenScope_dtor (t : pthread_t) : M unit :=
  assign_shouldPersistCitizens t false.

(** ** Construction *)

(** [Citizen::_addCitizen], called by thread [t] for the object at [c]. *)
Definition _addCitizen (t : pthread_t) (c : addr) : M memId :=
  cid <- _nextMemIdAndIncrement t ;;
  persist <- _shouldPersistCitizens t ;;
  (if persist
   then modify (λ s, set_persistentCitizens
                       (<[c := (cid, t)]> (_persistentCitizens s)) s)
   else modify (λ s, set_activeCitizens
                       (<[c := (cid, t)]> (_activeCitizens s)) s)) ;;;
  newId <- gets _newId ;;
  (if cid =? newId
   then cb <- gets _newCallback ;;
        d <- invoke (NewHook cid) (cb cid) ;;
        modify (set_newId (memId_wrap (newId + d)))
   else ret ()) ;;;
  ret cid.

(** [Citizen::Citizen(std::type_info const& type)] at address [this]; the
    object is live once all three members are initialised. *)
Definition Citizen_ctor (t : pthread_t) (this : addr) (type : string)
  : M unit :=
  cid <- _addCitizen t this ;;
  store this (mkCitizen (to_int magicSentinel) cid type).

(** [Citizen::Citizen(Citizen const& citizen)] *)
Definition Citizen_copy_ctor (t : pthread_t) (this citizen : addr) : M unit :=
  cid <- _addCitizen t this ;;
  o <- deref citizen ;;
  store this (mkCitizen (to_int magicSentinel) cid (_typeName o)).

(** [Citizen& operator=(Citizen const&) { return *this; }] *)
Definition Citizen_assign (this citizen : addr) : M addr := ret this.

(** [Citizen::getId] *)
Definition getId (this : addr) : M memId :=
  o <- deref this ;; ret (_CitizenId o).

(** Thread [t] constructs one [Citizen] after another, at the addresses
    and with the type names of [cs]; the result lists the [getId()] of
    each, read as soon as it is built. *)
Fixpoint construct_all (t : pthread_t) (cs : list (addr * string))
  : M (list memId) :=
  match cs with
  | [] => ret []
  | (c, type) :: cs' =>
      Citizen_ctor t c type ;;;
      id <- getId c ;;
      ids <- construct_all t cs' ;;
      ret (id :: ids)
  end.

(** ** Corruption check *)

(** [Citizen::_hasBeenCorrupted] *)
Definition _hasBeenCorrupted (this : addr) : M bool :=
  o <- deref this ;;
  if (_sentinel o =? to_int magicSentinel)%Z
  then ret false
  else cb <- gets _corruptionCallback ;;
       invoke (CorruptionHook this) (cb this o) ;;;
       ret true.

(** A stray write of [z] over the first [int] of the block at [this], as
    [((int * )y.get())[0] = 0] in tests/citizen.cc. *)
Definition scribble (this : addr) (z : Z) : M unit :=
  o <- deref this ;; store this (set_sentinel (to_int z) o).

(** ** Destruction *)

(** First block of [Citizen::~Citizen]: the delete watch. *)
Definition dtor_watch (this : addr) : M unit :=
  o <- deref this ;;
  deleteId <- gets _deleteId ;;
  if _CitizenId o =? deleteId
  then cb <- gets _deleteCallback ;;
       d <- invoke (DeleteHook this) (cb this o) ;;
       modify (set_deleteId (memId_wrap (deleteId + d)))
  else ret ().

(** Second block: erase from the tables, and tell whether the
    registration was found as it should.  [erase] on the persistent table
    is evaluated only when the two tests before it let it be. *)
Definition dtor_erase (this : addr) : M bool :=
  λ s, let '(nActive, act) := table_erase (_activeCitizens s) this in
       let s1 := set_activeCitizens act s in
       if 1 <? nActive then Val true s1
       else if nActive =? 0
            then let '(nPersistent, per) :=
                   table_erase (_persistentCitizens s1) this in
                 Val (negb (nPersistent =? 1)) (set_persistentCitizens per s1)
            else Val false s1.

(** The rest of the destructor, from the sentinel check on; the lifetime
    of the object ends with it. *)
Definition dtor_finish (this : addr) : M unit :=
  _hasBeenCorrupted this ;;;
  o <- deref this ;;
  store this (set_sentinel (to_int deadSentinel) o) ;;;
  corrupt <- dtor_erase this ;;
  (if corrupt : bool
   then cb <- gets _corruptionCallback ;;
        o' <- deref this ;;
        invoke (CorruptionHook this) (cb this o') ;;;
        ret ()
   else ret ()) ;;;
  modify (λ s, set_objects (delete this (objects s)) s).

(** [Citizen::~Citizen].  When a callback throws, the state of the
    outcome is the one in which the exception leaves the destructor: it
    tells what has been erased and invoked by then, and nothing on the
    object, which is gone then as well. *)
Definition Citizen_dtor (this : addr) : M unit :=
  dtor_watch this ;;; dtor_finish this.

(** ** Persistence *)

(** [Citizen::markPersistent] *)
Definition markPersistent (this : addr) : M unit :=
  λ s, let '(info, act) := table_index (_activeCitizens s) this in
       let per := <[this := info]> (_persistentCitizens s) in
       let '(_, act') := table_erase act this in
       Val () (set_activeCitizens act' (set_persistentCitizens per s)).

(** ** Watch ids and callback slots *)

(** [Citizen::setNewCallbackId] *)
Definition setNewCallbackId (id : memId) : M memId :=
  oldId <- gets _newId ;; modify (set_newId id) ;;; ret oldId.

(** [Citizen::setDeleteCallbackId] *)
Definition setDeleteCallbackId (id : memId) : M memId :=
  oldId <- gets _deleteId ;; modify (set_deleteId id) ;;; ret oldId.

(** [Citizen::setNewCallback] *)
Definition setNewCallback (func : memNewCallback) : M memNewCallback :=
  old <- gets _newCallback ;; modify (set_newCallback func) ;;; ret old.

(** [Citizen::setDeleteCallback] *)
Definition setDeleteCallback (func : memCallback) : M memCallback :=
  old <- gets _deleteCallback ;; modify (set_deleteCallback func) ;;; ret old.

(** [Citizen::setCorruptionCallback] *)
Definition setCorruptionCallback (func : memCallback) : M memCallback :=
  old <- gets _corruptionCallback ;;
  modify (set_corruptionCallback func) ;;; ret old.

(** ** Census

    The census functions only read; they are given as functions of the
    state, [None] standing for no defined behaviour. *)

(** [c->getId()] / [c->_CitizenId] for a key of a table. *)
Definition idOf (s : State) (c : addr) : option memId :=
  _CitizenId <$> objects s !! c.

(** The loop of [census(memId)]: push the keys whose id is at least
    [startingMemId], in iteration order. *)
Fixpoint census_collect (s : State) (startingMemId : memId)
    (keys : list addr) : option (list addr) :=
  match keys with
  | [] => Some []
  | c :: keys' =>
      id ← idOf s c;
      vec ← census_collect s startingMemId keys';
      Some (if startingMemId <=? id then c :: vec else vec)
  end.

(** [cmpId]: [a->getId() < b->getId()]; it is only applied to pointers the
    loop above has already read through. *)
Definition cmpId (s : State) (a b : addr) : bool :=
  match idOf s a, idOf s b with
  | Some x, Some y => x <? y
  | _, _ => false
  end.

(** [std::sort(vec.begin(), vec.end(), cmp)] promises a permutation in
    which no element compares less than one before it, and nothing about
    the order of equivalent elements; insertion sort is one such. *)
Fixpoint sort_insert {A} (cmp : A → A → bool) (x : A) (l : list A) : list A :=
  match l with
  | [] => [x]
  | y :: l' => if cmp x y then x :: y :: l' else y :: sort_insert cmp x l'
  end.

Fixpoint std_sort {A} (cmp : A → A → bool) (l : list A) : list A :=
  match l with
  | [] => []
  | x :: l' => sort_insert cmp x (std_sort cmp l')
  end.

(** [Citizen::census(memId startingMemId)] *)
Definition census (startingMemId : memId) (s : State) : option (list addr) :=
  vec ← census_collect s startingMemId (table_iter (_activeCitizens s));
  Some (std_sort (cmpId s) vec).

(** The loop of [countCitizens]: [int n], incremented for each key whose
    id is at least [startingMemId]. *)
Fixpoint count_loop (s : State) (startingMemId : memId) (keys : list addr)
    (n : Z) : option Z :=
  match keys with
  | [] => Some n
  | c :: keys' =>
      id ← idOf s c;
      if startingMemId <=? id
      then (if (n <? INT_MAX)%Z
            then count_loop s startingMemId keys' (n + 1)%Z
            else None)
      else count_loop s startingMemId keys' n
  end.

(** [Citizen::countCitizens]; the result is a [std::size_t]. *)
Definition countCitizens (startingMemId : memId) (s : State) : option N :=
  if startingMemId =? 0
  then Some (N.of_nat (size (_activeCitizens s)))
  else n ← count_loop s startingMemId (table_iter (_activeCitizens s)) 0%Z;
       Some (Z.to_N n).

(** ** Derived states

    Closed forms of the states the operations reach; the lemmas of the
    second part relate them to the operations. *)

(** The state once thread [t] has taken its next id and inserted the entry
    for [c]. *)
Definition registered (t : pthread_t) (c : addr) (s : State) : State :=
  let cid := peekRef (perThreadId s) t in
  let s1 :=
    set_perThreadPersistFlag (getRef (perThreadPersistFlag s) t).2
      (set_perThreadId
         (putRef (getRef (perThreadId s) t).2 t (memId_wrap (cid + 1))) s) in
  if peekRef (perThreadPersistFlag s) t
  then set_persistentCitizens (<[c := (cid, t)]> (_persistentCitizens s)) s1
  else set_activeCitizens (<[c := (cid, t)]> (_activeCitizens s)) s1.

(** The state in which [_addCitizen] ends, by return or by exception. *)
Definition added (t : pthread_t) (c : addr) (s : State) : State :=
  let cid := peekRef (perThreadId s) t in
  if cid =? _newId s
  then let s3 := set_fired (fired s ++ [NewHook cid]) (registered t c s) in
       match _newCallback s cid with
       | Returns d => set_newId (memId_wrap (_newId s + d)) s3
       | Throws => s3
       end
  else registered t c s.

(** Run an operation and keep the state it ends in. *)
Definition exec {A} (m : M A) (s : State) : State := default s (final (m s)).

Arguments registered : simpl never.
Arguments added : simpl never.

(** The tables once the destructor of [this] has erased from them. *)
Definition erased (this : addr) (s : State) : State :=
  set_persistentCitizens
    (match _activeCitizens s !! this with
     | Some _ => _persistentCitizens s
     | None => delete this (_persistentCitizens s)
     end)
    (set_activeCitizens (delete this (_activeCitizens s)) s).

(** [this] is registered in neither table. *)
Definition dangling (this : addr) (s : State) : bool :=
  bool_decide (_activeCitizens s !! this = None ∧
               _persistentCitizens s !! this = None).

(** The sentinel of [o] is intact. *)
Definition intact (o : Citizen) : bool :=
  bool_decide (_sentinel o = to_int magicSentinel).

(** Note one more invocation. *)
Definition noting (h : Hook) (s : State) : State :=
  set_fired (fired s ++ [h]) s.

(** The state the destructor of the live object [o] at [this] is in once
    its sentinel is checked and overwritten and its entry erased. *)
Definition unregistered (this : addr) (o : Citizen) (s : State) : State :=
  let s1 := if intact o then s else noting (CorruptionHook this) s in
  erased this
    (set_objects (<[this := set_sentinel (to_int deadSentinel) o]> (objects s))
       s1).

(** [dtor_finish] on the live object [o] at [this], in closed form. *)
Definition finished (this : addr) (o : Citizen) (s : State) : Res unit :=
  if negb (intact o) && bool_decide (_corruptionCallback s this o = Throws)
  then Throw (noting (CorruptionHook this) s)
  else
    let s2 := unregistered this o s in
    if dangling this s
    then let s3 := noting (CorruptionHook this) s2 in
         match _corruptionCallback s this
                 (set_sentinel (to_int deadSentinel) o) with
         | Returns _ => Val () (set_objects (delete this (objects s)) s3)
         | Throws => Throw s3
         end
    else Val () (set_objects (delete this (objects s)) s2).

(** The objects the delete-callback was invoked on, oldest first. *)
Definition deletions (l : list Hook) : list addr :=
  omap (λ h, match h with DeleteHook p => Some p | _ => None end) l.

(** The callbacks [dtor_finish] invokes for the live object [o] at [this]:
    one for a broken sentinel, then one for a missing registration. *)
Definition finish_hooks (this : addr) (o : Citizen) (s : State) : list Hook :=
  (if intact o then [] else [CorruptionHook this]) ++
  (if dangling this s then [CorruptionHook this] else []).

Arguments unregistered : simpl never.

(** ** Sample states *)

(** Thread 7 builds a [Shoe] at address 100 inside a
    [PersistentCitizenScope]. *)
Definition persistent_shoe : State :=
  exec (PersistentCitizenScope_dtor 7)
    (exec (Citizen_ctor 7 100 "Shoe")
       (exec (PersistentCitizenScope_ctor 7) initial)).

(** Thread 7 builds a [Shoe] at address 100. *)
Definition shoe_built : State := exec (Citizen_ctor 7 100 "Shoe") initial.

(** The [Citizen] part of that [Shoe]. *)
Definition shoe : Citizen := mkCitizen (to_int magicSentinel) 1 "Shoe".

(** Thread 7 builds objects at 100, 200 and 300 and destroys the second. *)
Definition second_destroyed : State :=
  exec (Citizen_dtor 200)
    (exec (Citizen_ctor 7 300 "MyClass")
       (exec (Citizen_ctor 7 200 "Shoe") shoe_built)).

(** Thread 7 has built fourteen objects; its next id is 15. *)
Definition fourteen_built : State :=
  exec (construct_all 7 ((λ i, (100 * N.of_nat i, "Shoe")) <$> seq 1 14))
    initial.

(** ** The registry invariant *)

(** The object at [p] is in exactly one of the two tables. *)
Definition in_one_table (s : State) (p : addr) : Prop :=
  (is_Some (_activeCitizens s !! p) ∧ _persistentCitizens s !! p = None) ∨
  (_activeCitizens s !! p = None ∧ is_Some (_persistentCitizens s !! p)).

(** The address [p] is in neither table. *)
Definition in_no_table (s : State) (p : addr) : Prop :=
  _activeCitizens s !! p = None ∧ _persistentCitizens s !! p = None.

(** The tables are disjoint and hold, between them, the live objects and
    nothing else. *)
Definition registry_inv (s : State) : Prop :=
  dom (_activeCitizens s) ## dom (_persistentCitizens s) ∧
  dom (_activeCitizens s) ∪ dom (_persistentCitizens s) = dom (objects s).

Global Instance registry_inv_dec s : Decision (registry_inv s).
Proof. unfold registry_inv. apply _. Defined.

(** The operations on the registry, each on an object it may be applied
    to, and each having returned. *)
Inductive step (s s' : State) : Prop :=
  | step_ctor t this type :
      objects s !! this = None →
      Citizen_ctor t this type s = Val () s' →
      step s s'
  | step_copy_ctor t this citizen :
      objects s !! this = None →
      Citizen_copy_ctor t this citizen s = Val () s' →
      step s s'
  | step_markPersistent this :
      is_Some (objects s !! this) →
      markPersistent this s = Val () s' →
      step s s'
  | step_dtor this :
      Citizen_dtor this s = Val () s' →
      step s s'.

(** ** Census vocabulary *)

(** Both pointers are to live objects, and the id of the first is at most
    that of the second. *)
Definition id_le (s : State) (a b : addr) : Prop :=
  ∃ x y, idOf s a = Some x ∧ idOf s b = Some y ∧ x ≤ y.

(** The object at [c] is live with an id of at least [startingMemId]. *)
Definition qualifies (s : State) (startingMemId : memId) (c : addr) : Prop :=
  ∃ id, idOf s c = Some id ∧ startingMemId ≤ id.

Global Instance qualifies_dec s m c : Decision (qualifies s m c).
Proof.
  unfold qualifies. destruct (idOf s c) as [id|].
  - destruct (decide (m ≤ id)) as [H|H].
    + left. by exists id.
    + right. intros (id' & [= <-] & ?). done.
  - right. by intros (? & ? & _).
Defined.

(** ** The scan of all registered objects *)

(** The loops of [Citizen::hasBeenCorrupted()]: check each key in turn and
    stop at the first whose check returns true. *)
Fixpoint scan (keys : list addr) : M bool :=
  match keys with
  | [] => ret false
  | c :: keys' =>
      b <- _hasBeenCorrupted c ;;
      if b : bool then ret true else scan keys'
  end.

(** [Citizen::hasBeenCorrupted()]: the active table first, then the
    persistent one. *)
Definition hasBeenCorrupted : M bool :=
  act <- gets _activeCitizens ;;
  b <- scan (table_iter act) ;;
  if b : bool then ret true
  else per <- gets _persistentCitizens ;;
       scan (table_iter per).

(** The object at [c] is live and its sentinel is not the magic
    pattern. *)
Definition broken (s : State) (c : addr) : Prop :=
  ∃ o, objects s !! c = Some o ∧ intact o = false.

Global Instance broken_dec s c : Decision (broken s c).
Proof.
  unfold broken. destruct (objects s !! c) as [o|].
  - destruct (intact o) eqn:E.
    + right. intros (o' & [= <-] & ?). congruence.
    + left. by exists o.
  - right. by intros (? & ? & _).
Defined.

(** The keys [hasBeenCorrupted()] visits, in the order it visits them. *)
Definition scan_order (s : State) : list addr :=
  table_iter (_activeCitizens s) ++ table_iter (_persistentCitizens s).

(** ** More vocabulary *)

(** What [census] pushes before it sorts. *)
Definition census_vec (s : State) (startingMemId : memId) : list addr :=
  filter (qualifies s startingMemId) (table_iter (_activeCitizens s)).

(** Every key of the active table points to a live object. *)
Definition active_live (s : State) : Prop :=
  ∀ c, is_Some (_activeCitizens s !! c) → is_Some (objects s !! c).

(** The id recorded in the active table for an object is the id the
    object carries. *)
Definition info_agrees (s : State) : Prop :=
  ∀ p id t o,
    _activeCitizens s !! p = Some (id, t) →
    objects s !! p = Some o →
    _CitizenId o = id.

(** The test case [all] of tests/citizen.cc, run by thread 7 with [x] at
    100, [y] at 200, [z] at 300 and, inside [foo], the [Shoe] at 400 and
    the [MyClass] at 500; the calls on memory use are left out.  The
    states are those at the checks of the test. *)
Definition test_x_built : State :=
  exec (Citizen_ctor 7 100 "Shoe")
    (exec (setDeleteCallbackId 2) (exec (setNewCallbackId 2) initial)).
Definition test_in_foo : State :=
  exec (Citizen_ctor 7 500 "MyClass")
    (exec (Citizen_ctor 7 400 "Shoe")
       (exec (Citizen_ctor 7 300 "Shoe")
          (exec (Citizen_ctor 7 200 "Shoe") test_x_built))).
Definition test_after_foo : State := exec (Citizen_dtor 400) test_in_foo.
Definition test_x_persistent : State := exec (markPersistent 100) test_after_foo.
Definition test_end : State :=
  exec (Citizen_dtor 200)
    (exec (Citizen_dtor 500) (exec (Citizen_dtor 300) test_x_persistent)).

(** The persistent [Shoe] of [persistent_shoe] with a zero written over
    its sentinel. *)
Definition persistent_shoe_scribbled : State :=
  exec (scribble 100 0) persistent_shoe.

(** The [Shoe] of [shoe_built] with a zero written over its sentinel,
    under a corruption callback that returns. *)
Definition shoe_scribbled_recording : State :=
  exec (scribble 100 0)
    (exec (setCorruptionCallback (λ _ _, Returns 0)) shoe_built).

(** The allocate watch is on id 1 and the new-callback throws. *)
Definition new_callback_throws : State :=
  exec (setNewCallback (λ _, Throws)) (exec (setNewCallbackId 1) initial).

(** * Properties *)

(** ** Thread-private cells *)

Section thread_private.
Context {T : Type}.
Implicit Types (tp : ThreadPrivate T) (t : pthread_t).

Lemma getRef_peek tp t : (getRef tp t).1 = peekRef tp t.
Proof. unfold getRef, peekRef. by destruct (_key tp !! t). Qed.

Lemma peekRef_getRef tp t t' : peekRef (getRef tp t).2 t' = peekRef tp t'.
Proof.
  unfold getRef, peekRef. destruct (_key tp !! t) eqn:E; simpl; [done|].
  destruct (decide (t = t')) as [<-|Hne].
  - by rewrite lookup_insert_eq, E.
  - by rewrite lookup_insert_ne.
Qed.

Lemma peekRef_putRef tp t v t' :
  peekRef (putRef tp t v) t' = if decide (t = t') then v else peekRef tp t'.
Proof.
  unfold putRef, peekRef; simpl. destruct (decide (t = t')) as [<-|Hne].
  - by rewrite lookup_insert_eq.
  - by rewrite lookup_insert_ne.
Qed.

Lemma getRef_pair tp t : getRef tp t = (peekRef tp t, (getRef tp t).2).
Proof. rewrite <- getRef_peek. by destruct (getRef tp t). Qed.
End thread_private.

(** ** What [_addCitizen] does, in one equation *)

Lemma _addCitizen_unfold t c s :
  let cid := peekRef (perThreadId s) t in
  let s2 := registered t c s in
  _addCitizen t c s =
    if cid =? _newId s
    then let s3 := set_fired (fired s ++ [NewHook cid]) s2 in
         match _newCallback s cid with
         | Returns d => Val cid (set_newId (memId_wrap (_newId s + d)) s3)
         | Throws => Throw s3
         end
    else Val cid s2.
Proof.
  unfold _addCitizen, registered, bind, _nextMemIdAndIncrement,
    _shouldPersistCitizens, gets, modify, invoke, ret, throw; simpl.
  rewrite (getRef_pair (perThreadId s) t); simpl.
  rewrite (getRef_pair (perThreadPersistFlag s) t); simpl.
  destruct (peekRef (perThreadPersistFlag s) t); simpl;
    destruct (peekRef (perThreadId s) t =? _newId s); simpl; try done;
    unfold bind; simpl; by destruct (_newCallback s _).
Qed.

Lemma registered_active t c s :
  _activeCitizens (registered t c s) =
    if peekRef (perThreadPersistFlag s) t then _activeCitizens s
    else <[c := (peekRef (perThreadId s) t, t)]> (_activeCitizens s).
Proof. unfold registered. by destruct (peekRef (perThreadPersistFlag s) t). Qed.

Lemma registered_persistent t c s :
  _persistentCitizens (registered t c s) =
    if peekRef (perThreadPersistFlag s) t
    then <[c := (peekRef (perThreadId s) t, t)]> (_persistentCitizens s)
    else _persistentCitizens s.
Proof. unfold registered. by destruct (peekRef (perThreadPersistFlag s) t). Qed.

Lemma registered_frame t c s :
  _newId (registered t c s) = _newId s ∧
  _deleteId (registered t c s) = _deleteId s ∧
  _newCallback (registered t c s) = _newCallback s ∧
  _deleteCallback (registered t c s) = _deleteCallback s ∧
  _corruptionCallback (registered t c s) = _corruptionCallback s ∧
  objects (registered t c s) = objects s ∧
  fired (registered t c s) = fired s.
Proof. unfold registered. by destruct (peekRef (perThreadPersistFlag s) t). Qed.

Lemma registered_perThreadId t c s t' :
  peekRef (perThreadId (registered t c s)) t' =
    if decide (t = t') then memId_wrap (peekRef (perThreadId s) t + 1)
    else peekRef (perThreadId s) t'.
Proof.
  unfold registered.
  destruct (peekRef (perThreadPersistFlag s) t); simpl;
    rewrite peekRef_putRef, peekRef_getRef; done.
Qed.

Lemma registered_perThreadPersistFlag t c s t' :
  peekRef (perThreadPersistFlag (registered t c s)) t' =
    peekRef (perThreadPersistFlag s) t'.
Proof.
  unfold registered.
  destruct (peekRef (perThreadPersistFlag s) t); simpl;
    by rewrite peekRef_getRef.
Qed.

Lemma _addCitizen_final t c s : final (_addCitizen t c s) = Some (added t c s).
Proof.
  rewrite _addCitizen_unfold. unfold added; simpl.
  destruct (_ =? _); [|done]. by destruct (_newCallback s _).
Qed.

Lemma _addCitizen_outcome t c s :
  let cid := peekRef (perThreadId s) t in
  _addCitizen t c s =
    if (cid =? _newId s) && bool_decide (_newCallback s cid = Throws)
    then Throw (added t c s) else Val cid (added t c s).
Proof.
  rewrite _addCitizen_unfold. unfold added; simpl.
  destruct (_ =? _); [|done]. by destruct (_newCallback s _).
Qed.

Lemma added_tables t c s :
  _activeCitizens (added t c s) = _activeCitizens (registered t c s) ∧
  _persistentCitizens (added t c s) = _persistentCitizens (registered t c s) ∧
  objects (added t c s) = objects s.
Proof.
  unfold added; simpl. pose proof (registered_frame t c s) as (_&_&_&_&_&Ho&_).
  destruct (_ =? _); [|done]. by destruct (_newCallback s _).
Qed.

Lemma added_fired t c s :
  fired (added t c s) =
    fired s ++ (if peekRef (perThreadId s) t =? _newId s
                then [NewHook (peekRef (perThreadId s) t)] else []).
Proof.
  unfold added. pose proof (registered_frame t c s) as (_&_&_&_&_&_&Hf).
  destruct (_ =? _).
  - by destruct (_newCallback s _).
  - by rewrite Hf, app_nil_r.
Qed.

Lemma added_newId t c s :
  _newId (added t c s) =
    if peekRef (perThreadId s) t =? _newId s
    then match _newCallback s (peekRef (perThreadId s) t) with
         | Returns d => memId_wrap (_newId s + d)
         | Throws => _newId s
         end
    else _newId s.
Proof.
  unfold added. pose proof (registered_frame t c s) as (Hn&_).
  destruct (_ =? _); [|done]. by destruct (_newCallback s _).
Qed.

Lemma Citizen_ctor_unfold t this type s :
  Citizen_ctor t this type s =
    match _addCitizen t this s with
    | Val cid s' =>
        Val () (set_objects
                  (<[this := mkCitizen (to_int magicSentinel) cid type]>
                     (objects s')) s')
    | Throw s' => Throw s'
    | Undefined => Undefined
    end.
Proof. unfold Citizen_ctor, bind, store, modify. by destruct (_addCitizen _ _ _). Qed.

(** ** Assignment *)

(** C10: [operator=] returns its target and leaves the whole state as it
    was: the target's id, sentinel and type name, and both tables. *)
Theorem Citizen_assign_frame (this citizen : addr) (s : State) :
  ∃ s', Citizen_assign this citizen s = Val this s' ∧
        s' = s ∧
        objects s' !! this = objects s !! this ∧
        getId this s' = getId this s ∧
        _activeCitizens s' = _activeCitizens s ∧
        _persistentCitizens s' = _persistentCitizens s.
Proof. exists s. by unfold Citizen_assign, ret. Qed.

(** ** The allocate watch *)

(** C5: [_addCitizen] invokes the new-callback exactly when the id it has
    just taken is [_newId], with that id as argument; when the callback
    returns [d] the watch becomes [_newId + d].  With the watch at 15 and a
    callback returning 5, the construction that takes id 15 invokes the
    callback once and leaves the watch at 20. *)
Theorem allocate_watch (t : pthread_t) (c : addr) (type : string) (s : State) :
  let cid := peekRef (perThreadId s) t in
  (∃ s', final (_addCitizen t c s) = Some s' ∧
         fired s' = fired s ++ (if cid =? _newId s then [NewHook cid] else []) ∧
         _newId s' =
           (if cid =? _newId s
            then match _newCallback s cid with
                 | Returns d => memId_wrap (_newId s + d)
                 | Throws => _newId s
                 end
            else _newId s) ∧
         _addCitizen t c s =
           (if (cid =? _newId s) && bool_decide (_newCallback s cid = Throws)
            then Throw s' else Val cid s')) ∧
  (cid = 15 →
   ∃ s1 s2 s', setNewCallback (λ _, Returns 5) s = Val (_newCallback s) s1 ∧
               setNewCallbackId 15 s1 = Val (_newId s) s2 ∧
               Citizen_ctor t c type s2 = Val () s' ∧
               getId c s' = Val 15 s' ∧
               fired s' = fired s ++ [NewHook 15] ∧
               _newId s' = 20).
Proof.
  intros cid. split.
  - exists (added t c s). split; [apply _addCitizen_final|].
    split; [apply added_fired|]. split; [apply added_newId|].
    apply _addCitizen_outcome.
  - intros Hcid.
    set (s2 := set_newId 15 (set_newCallback (λ _, Returns 5) s)).
    assert (Hadd : _addCitizen t c s2 = Val 15 (added t c s2)).
    { rewrite _addCitizen_outcome. simpl. fold cid. by rewrite Hcid. }
    eexists _, s2, _. split; [reflexivity|]. split; [reflexivity|].
    rewrite Citizen_ctor_unfold, Hadd. split; [reflexivity|].
    split; [|split].
    + unfold getId, bind, deref; simpl. by rewrite lookup_insert_eq.
    + simpl. rewrite added_fired. simpl. fold cid. by rewrite Hcid.
    + simpl. rewrite added_newId. simpl. fold cid. by rewrite Hcid.
Qed.

Lemma allocate_watch_witness :
  peekRef (perThreadId fourteen_built) 7 = 15 ∧
  ∃ s1 s2 s',
    setNewCallback (λ _, Returns 5) fourteen_built =
      Val (_newCallback fourteen_built) s1 ∧
    setNewCallbackId 15 s1 = Val (_newId fourteen_built) s2 ∧
    Citizen_ctor 7 1500 "Shoe" s2 = Val () s' ∧
    getId 1500 s' = Val 15 s' ∧
    fired s' = fired fourteen_built ++ [NewHook 15] ∧
    _newId s' = 20.
Proof.
  split; [reflexivity|].
  apply (proj2 (allocate_watch 7 1500 "Shoe" fourteen_built)). reflexivity.
Defined.

(** ** The persistence flag *)

(** C8: a registration by thread [t] goes to the persistent table when the
    flag of [t] is set and to the active table otherwise; a
    [PersistentCitizenScope] sets the flag on entry and clears it on exit
    whatever it was, so after an inner scope has ended inside an outer one
    the flag is clear and the next registration is an active one. *)
Theorem persist_flag_is_a_bare_boolean (t : pthread_t) (c : addr) (s : State) :
  (∃ s', final (_addCitizen t c s) = Some s' ∧
         if peekRef (perThreadPersistFlag s) t
         then _persistentCitizens s' =
                <[c := (peekRef (perThreadId s) t, t)]> (_persistentCitizens s) ∧
              _activeCitizens s' = _activeCitizens s
         else _activeCitizens s' =
                <[c := (peekRef (perThreadId s) t, t)]> (_activeCitizens s) ∧
              _persistentCitizens s' = _persistentCitizens s) ∧
  (∃ s1, PersistentCitizenScope_ctor t s = Val () s1 ∧
         peekRef (perThreadPersistFlag s1) t = true) ∧
  (∃ s1, PersistentCitizenScope_dtor t s = Val () s1 ∧
         peekRef (perThreadPersistFlag s1) t = false) ∧
  (∃ outer inner s3 s4,
      PersistentCitizenScope_ctor t s = Val () outer ∧
      PersistentCitizenScope_ctor t outer = Val () inner ∧
      PersistentCitizenScope_dtor t inner = Val () s3 ∧
      peekRef (perThreadPersistFlag s3) t = false ∧
      final (_addCitizen t c s3) = Some s4 ∧
      _activeCitizens s4 =
        <[c := (peekRef (perThreadId s) t, t)]> (_activeCitizens s) ∧
      _persistentCitizens s4 = _persistentCitizens s).
Proof.
  assert (Hassign : ∀ b s0, ∃ s1,
    assign_shouldPersistCitizens t b s0 = Val () s1 ∧
    peekRef (perThreadPersistFlag s1) t = b ∧
    perThreadId s1 = perThreadId s0 ∧
    _activeCitizens s1 = _activeCitizens s0 ∧
    _persistentCitizens s1 = _persistentCitizens s0).
  { intros b s0. unfold assign_shouldPersistCitizens.
    destruct (getRef (perThreadPersistFlag s0) t) as [v tp].
    eexists. split; [reflexivity|]. simpl.
    rewrite peekRef_putRef. by rewrite decide_True. }
  split; [|split; [|split]].
  - exists (added t c s). split; [apply _addCitizen_final|].
    destruct (added_tables t c s) as (-> & -> & _).
    rewrite registered_active, registered_persistent.
    by destruct (peekRef (perThreadPersistFlag s) t).
  - destruct (Hassign true s) as (s1 & ? & ? & _). by exists s1.
  - destruct (Hassign false s) as (s1 & ? & ? & _). by exists s1.
  - destruct (Hassign true s) as (s1 & E1 & _ & Hi1 & Ha1 & Hp1).
    destruct (Hassign true s1) as (s2 & E2 & _ & Hi2 & Ha2 & Hp2).
    destruct (Hassign false s2) as (s3 & E3 & Hf3 & Hi3 & Ha3 & Hp3).
    exists s1, s2, s3, (added t c s3).
    repeat (split; [done|]). split; [apply _addCitizen_final|].
    destruct (added_tables t c s3) as (-> & -> & _).
    rewrite registered_active, registered_persistent, Hf3.
    by rewrite Hi3, Hi2, Hi1, Ha3, Ha2, Ha1, Hp3, Hp2, Hp1.
Qed.

(** ** [markPersistent] *)

Lemma markPersistent_unfold this s :
  markPersistent this s =
    Val () (set_activeCitizens (delete this (_activeCitizens s))
              (set_persistentCitizens
                 (<[this := default (0, 0) (_activeCitizens s !! this)]>
                    (_persistentCitizens s)) s)).
Proof.
  unfold markPersistent, table_index, table_erase.
  destruct (_activeCitizens s !! this) eqn:E; simpl; [done|].
  by rewrite delete_insert_eq.
Qed.

(** C1, as the code has it: [markPersistent] on an object that is not in
    the active table returns, leaves the active table and every other
    entry of the persistent table as they were, and leaves the object in
    the persistent table (whose keys are those it had and this one). *)
Theorem markPersistent_not_active (this : addr) (s : State) :
  _activeCitizens s !! this = None →
  ∃ s', markPersistent this s = Val () s' ∧
        _activeCitizens s' = _activeCitizens s ∧
        is_Some (_persistentCitizens s' !! this) ∧
        dom (_persistentCitizens s') = {[this]} ∪ dom (_persistentCitizens s) ∧
        (∀ q, q ≠ this →
              _persistentCitizens s' !! q = _persistentCitizens s !! q) ∧
        objects s' = objects s ∧
        fired s' = fired s.
Proof.
  intros Hna. eexists. split; [apply markPersistent_unfold|]. simpl.
  split; [by apply delete_id|]. split; [by rewrite lookup_insert_eq|].
  split; [apply dom_insert_L|].
  split; [|done]. intros q Hq. by rewrite lookup_insert_ne.
Qed.

Lemma markPersistent_not_active_witness :
  _activeCitizens persistent_shoe !! 100 = None ∧
  ∃ s', markPersistent 100 persistent_shoe = Val () s' ∧
        _activeCitizens s' = _activeCitizens persistent_shoe ∧
        is_Some (_persistentCitizens s' !! 100) ∧
        dom (_persistentCitizens s') =
          {[100]} ∪ dom (_persistentCitizens persistent_shoe) ∧
        (∀ q, q ≠ 100 →
              _persistentCitizens s' !! q =
                _persistentCitizens persistent_shoe !! q) ∧
        objects s' = objects persistent_shoe ∧
        fired s' = fired persistent_shoe.
Proof.
  split; [reflexivity|].
  apply (markPersistent_not_active 100 persistent_shoe). reflexivity.
Defined.

(** C1 as stated fails: the [Shoe] built inside a persistence scope is not
    active, and [markPersistent] on it rewrites its entry in the
    persistent table. *)
Lemma markPersistent_not_active_changes_persistent :
  _activeCitizens persistent_shoe !! 100 = None ∧
  objects persistent_shoe !! 100 =
    Some (mkCitizen (to_int magicSentinel) 1 "Shoe") ∧
  ∃ s', markPersistent 100 persistent_shoe = Val () s' ∧
        _persistentCitizens persistent_shoe !! 100 = Some (1, 7) ∧
        _persistentCitizens s' !! 100 = Some (0, 0) ∧
        _persistentCitizens s' ≠ _persistentCitizens persistent_shoe.
Proof.
  split; [reflexivity|]. split; [reflexivity|].
  eexists. split; [reflexivity|]. split; [reflexivity|].
  split; [reflexivity|].
  intros Heq. apply (f_equal (λ m : gmap N (N * N), m !! 100)) in Heq.
  vm_compute in Heq. discriminate.
Qed.

(** ** The sentinel check *)

Lemma _hasBeenCorrupted_unfold this s o :
  objects s !! this = Some o →
  _hasBeenCorrupted this s =
    if intact o then Val false s
    else match _corruptionCallback s this o with
         | Returns _ => Val true (noting (CorruptionHook this) s)
         | Throws => Throw (noting (CorruptionHook this) s)
         end.
Proof.
  intros Ho. unfold _hasBeenCorrupted, bind, deref, intact. rewrite Ho.
  destruct (Z.eqb_spec (_sentinel o) (to_int magicSentinel)) as [E|E].
  - by rewrite bool_decide_eq_true_2.
  - rewrite bool_decide_eq_false_2 by done.
    unfold gets, invoke, bind, modify, noting, ret, throw.
    by destruct (_corruptionCallback s this o).
Qed.

Lemma dtor_erase_unfold this s :
  dtor_erase this s = Val (dangling this s) (erased this s).
Proof.
  unfold dtor_erase, table_erase, dangling, erased; simpl.
  destruct (_activeCitizens s !! this) eqn:Ea; simpl; [reflexivity|].
  destruct (_persistentCitizens s !! this) eqn:Ep; reflexivity.
Qed.

(** ** The destructor *)

Lemma dtor_finish_unfold this s o :
  objects s !! this = Some o →
  dtor_finish this s = finished this o s.
Proof.
  intros Ho. unfold dtor_finish, finished, unregistered.
  unfold bind at 1. rewrite (_hasBeenCorrupted_unfold _ _ _ Ho).
  assert (Hrest : ∀ s1 : State,
    objects s1 = objects s →
    _activeCitizens s1 = _activeCitizens s →
    _persistentCitizens s1 = _persistentCitizens s →
    _corruptionCallback s1 = _corruptionCallback s →
    (o0 <- deref this ;;
     store this (set_sentinel (to_int deadSentinel) o0) ;;;
     corrupt <- dtor_erase this ;;
     (if corrupt : bool
      then cb <- gets _corruptionCallback ;;
           o' <- deref this ;;
           invoke (CorruptionHook this) (cb this o') ;;; ret ()
      else ret ()) ;;;
     modify (λ s0, set_objects (delete this (objects s0)) s0)) s1 =
    let s2 := erased this
      (set_objects (<[this := set_sentinel (to_int deadSentinel) o]> (objects s))
         s1) in
    if dangling this s
    then match _corruptionCallback s this
                 (set_sentinel (to_int deadSentinel) o) with
         | Returns _ =>
             Val () (set_objects (delete this (objects s))
                       (noting (CorruptionHook this) s2))
         | Throws => Throw (noting (CorruptionHook this) s2)
         end
    else Val () (set_objects (delete this (objects s)) s2)).
  { intros s1 Hobj Hact Hper Hcb.
    unfold bind at 1. unfold deref. rewrite Hobj, Ho.
    unfold bind at 1. unfold store, modify.
    unfold bind at 1. rewrite dtor_erase_unfold.
    assert (Hd : dangling this
      (set_objects (<[this:=set_sentinel (to_int deadSentinel) o]> (objects s1))
         s1) = dangling this s).
    { unfold dangling; simpl. by rewrite Hact, Hper. }
    rewrite Hd, Hobj. simpl.
    destruct (dangling this s).
    - unfold bind, gets, deref, invoke, modify, ret, throw, noting; simpl.
      rewrite lookup_insert_eq, Hcb.
      destruct (_corruptionCallback s this _); simpl; [|done].
      by rewrite delete_insert_eq.
    - unfold bind, ret, modify; simpl. by rewrite delete_insert_eq. }
  destruct (intact o); simpl.
  - by apply Hrest.
  - destruct (_corruptionCallback s this o) eqn:Ecb; simpl; [|done].
    by apply Hrest.
Qed.

Lemma dtor_watch_unfold this s o :
  objects s !! this = Some o →
  dtor_watch this s =
    if _CitizenId o =? _deleteId s
    then match _deleteCallback s this o with
         | Returns d =>
             Val () (set_deleteId (memId_wrap (_deleteId s + d))
                       (noting (DeleteHook this) s))
         | Throws => Throw (noting (DeleteHook this) s)
         end
    else Val () s.
Proof.
  intros Ho. unfold dtor_watch, bind, deref, gets. rewrite Ho.
  destruct (_ =? _); [|done].
  unfold invoke, bind, modify, ret, throw, noting.
  by destruct (_deleteCallback s this o).
Qed.

Lemma unregistered_fields this o s :
  fired (unregistered this o s) =
    fired s ++ (if intact o then [] else [CorruptionHook this]) ∧
  _activeCitizens (unregistered this o s) = delete this (_activeCitizens s) ∧
  _persistentCitizens (unregistered this o s) =
    match _activeCitizens s !! this with
    | Some _ => _persistentCitizens s
    | None => delete this (_persistentCitizens s)
    end.
Proof.
  unfold unregistered, erased, noting.
  destruct (intact o); simpl; by rewrite ?app_nil_r.
Qed.

Lemma unregistered_absent this o s :
  _activeCitizens s !! this = None ∨ _persistentCitizens s !! this = None →
  _activeCitizens (unregistered this o s) !! this = None ∧
  _persistentCitizens (unregistered this o s) !! this = None.
Proof.
  intros H. destruct (unregistered_fields this o s) as (_ & -> & ->).
  split; [apply lookup_delete_eq|].
  destruct (_activeCitizens s !! this); [|apply lookup_delete_eq].
  by destruct H.
Qed.

(** A destructor that gets past the sentinel check invokes exactly
    [finish_hooks]. *)
Lemma finished_returns this o s s' :
  finished this o s = Val () s' →
  fired s' = fired s ++ finish_hooks this o s ∧
  _activeCitizens s' = delete this (_activeCitizens s) ∧
  _persistentCitizens s' =
    match _activeCitizens s !! this with
    | Some _ => _persistentCitizens s
    | None => delete this (_persistentCitizens s)
    end ∧
  objects s' = delete this (objects s).
Proof.
  unfold finished, finish_hooks, unregistered, erased, noting.
  destruct (intact o); simpl;
    (destruct (bool_decide (_corruptionCallback s this o = Throws));
       simpl; [try done|]);
    (destruct (dangling this s);
       [destruct (_corruptionCallback s this (set_sentinel _ o)); [|done]|]);
    intros [= <-]; simpl; by rewrite ?app_nil_r, <- ?app_assoc.
Qed.

Local Ltac hooks_are l :=
  eexists _, l; split; [reflexivity|]; simpl;
  rewrite <- ?app_assoc, ?app_nil_r; by split.

(** However [dtor_finish] ends, it invokes no delete-callback. *)
Lemma finished_final this o s :
  ∃ s' l, final (finished this o s) = Some s' ∧
          fired s' = fired s ++ l ∧ deletions l = [].
Proof.
  unfold finished, unregistered, erased, noting.
  destruct (intact o); simpl;
    destruct (bool_decide (_corruptionCallback s this o = Throws)); simpl;
    try destruct (dangling this s);
    try destruct (_corruptionCallback s this (set_sentinel _ o));
    first [ hooks_are (@nil Hook)
          | hooks_are [CorruptionHook this]
          | hooks_are [CorruptionHook this; CorruptionHook this] ].
Qed.

(** C9: the check on a live object returns false, invoking nothing, when
    the sentinel is the magic pattern, and otherwise invokes the
    corruption callback on the object and then returns true (an exception
    of the callback propagates in its place).  It returns false on an
    object just constructed, and takes the other branch once a value
    other than the magic pattern has been written over the sentinel. *)
Theorem sentinel_check (this : addr) (s : State) (o : Citizen) :
  objects s !! this = Some o →
  _hasBeenCorrupted this s =
    (if bool_decide (_sentinel o = to_int magicSentinel) then Val false s
     else match _corruptionCallback s this o with
          | Returns _ => Val true (noting (CorruptionHook this) s)
          | Throws => Throw (noting (CorruptionHook this) s)
          end) ∧
  (∀ t type s0, Citizen_ctor t this type s0 = Val () s →
                _hasBeenCorrupted this s = Val false s) ∧
  (∀ z, to_int z ≠ to_int magicSentinel →
        ∃ s1, scribble this z s = Val () s1 ∧
              _hasBeenCorrupted this s1 =
                match _corruptionCallback s this (set_sentinel (to_int z) o)
                with
                | Returns _ => Val true (noting (CorruptionHook this) s1)
                | Throws => Throw (noting (CorruptionHook this) s1)
                end).
Proof.
  intros Ho. split; [by apply _hasBeenCorrupted_unfold|]. split.
  - intros t type s0. rewrite Citizen_ctor_unfold.
    destruct (_addCitizen t this s0) as [cid s1| |]; [|done..].
    intros [= <-]. rewrite (_hasBeenCorrupted_unfold _ _ _ Ho).
    simpl in Ho. rewrite lookup_insert_eq in Ho. by injection Ho as <-.
  - intros z Hz. eexists. split.
    { unfold scribble, bind, deref, store, modify. by rewrite Ho. }
    erewrite _hasBeenCorrupted_unfold by (simpl; apply lookup_insert_eq).
    unfold intact; simpl. by rewrite bool_decide_eq_false_2.
Qed.

Lemma sentinel_check_witness :
  objects shoe_built !! 100 = Some shoe ∧
  _hasBeenCorrupted 100 shoe_built = Val false shoe_built ∧
  ∃ s1, scribble 100 0 shoe_built = Val () s1 ∧
        _hasBeenCorrupted 100 s1 = Throw (noting (CorruptionHook 100) s1).
Proof.
  split; [reflexivity|].
  destruct (sentinel_check 100 shoe_built shoe eq_refl) as (H1 & _ & H3).
  split; [exact H1|]. apply (H3 0%Z). by vm_compute.
Defined.

Lemma Citizen_dtor_unfold this s o :
  objects s !! this = Some o →
  Citizen_dtor this s =
    match dtor_watch this s with
    | Val _ s1 => finished this o s1
    | Throw s1 => Throw s1
    | Undefined => Undefined
    end.
Proof.
  intros Ho. unfold Citizen_dtor, bind.
  pose proof (dtor_watch_unfold this s o Ho) as Hw.
  destruct (dtor_watch this s) as [[] s1|s1|] eqn:E; [|done..].
  apply dtor_finish_unfold.
  destruct (_ =? _); [|by injection Hw as ->].
  destruct (_deleteCallback s this o); [|done]. by injection Hw as ->.
Qed.

Lemma deletions_app l1 l2 : deletions (l1 ++ l2) = deletions l1 ++ deletions l2.
Proof. apply omap_app. Qed.

(** ** The delete watch *)

(** C6: with the delete watch set to the id of the live object at [this],
    the first block of its destructor invokes the delete-callback on
    [this] and leaves both tables as they are; the rest of the destructor,
    which erases the entry, invokes it no more.  With the watch at any
    other id the destructor never invokes it. *)
Theorem delete_watch (this : addr) (s : State) (o : Citizen) :
  objects s !! this = Some o →
  (∃ armed s1 s',
      setDeleteCallbackId (_CitizenId o) s = Val (_deleteId s) armed ∧
      final (dtor_watch this armed) = Some s1 ∧
      fired s1 = fired s ++ [DeleteHook this] ∧
      _activeCitizens s1 = _activeCitizens s ∧
      _persistentCitizens s1 = _persistentCitizens s ∧
      objects s1 = objects s ∧
      Citizen_dtor this armed =
        match dtor_watch this armed with
        | Val _ s1 => dtor_finish this s1
        | Throw s1 => Throw s1
        | Undefined => Undefined
        end ∧
      final (Citizen_dtor this armed) = Some s' ∧
      deletions (fired s') = deletions (fired s) ++ [this] ∧
      (Citizen_dtor this armed = Val () s' →
       _activeCitizens s' = delete this (_activeCitizens s) ∧
       objects s' !! this = None)) ∧
  (_CitizenId o ≠ _deleteId s →
   ∃ s', final (Citizen_dtor this s) = Some s' ∧
         deletions (fired s') = deletions (fired s)).
Proof.
  intros Ho. split.
  - set (armed := set_deleteId (_CitizenId o) s).
    assert (Hoa : objects armed !! this = Some o) by done.
    pose proof (dtor_watch_unfold this armed o Hoa) as Hw.
    pose proof (Citizen_dtor_unfold this armed o Hoa) as Hd.
    simpl in Hw. rewrite N.eqb_refl in Hw.
    destruct (_deleteCallback s this o) as [d|] eqn:Ecb.
    + set (s1 := set_deleteId (memId_wrap (_CitizenId o + d))
                   (noting (DeleteHook this) armed)) in *.
      rewrite Hw in Hd.
      destruct (finished_final this o s1) as (s' & l & Hfin & Hl & Hdel).
      exists armed, s1, s'. split; [reflexivity|].
      split; [by rewrite Hw|]. do 4 (split; [reflexivity|]).
      split; [reflexivity|]. rewrite Hd. split; [done|]. split.
      * rewrite Hl. simpl. rewrite !deletions_app, Hdel. simpl.
        by rewrite app_nil_r.
      * intros Hv. apply finished_returns in Hv as (_ & Ha & _ & Hob).
        rewrite Ha, Hob. split; [done|]. apply lookup_delete_eq.
    + exists armed, (noting (DeleteHook this) armed),
        (noting (DeleteHook this) armed).
      rewrite Hw in Hd. split; [reflexivity|].
      split; [by rewrite Hw|]. do 4 (split; [reflexivity|]).
      split; [reflexivity|]. rewrite Hd. split; [done|]. split; [|done].
      simpl. by rewrite deletions_app.
  - intros Hne. pose proof (dtor_watch_unfold this s o Ho) as Hw.
    pose proof (Citizen_dtor_unfold this s o Ho) as Hd.
    apply N.eqb_neq in Hne. rewrite Hne in Hw. rewrite Hw in Hd.
    destruct (finished_final this o s) as (s' & l & Hfin & Hl & Hdel).
    exists s'. rewrite Hd. split; [done|].
    by rewrite Hl, deletions_app, Hdel, app_nil_r.
Qed.

Lemma delete_watch_witness :
  objects shoe_built !! 100 = Some shoe ∧
  ∃ s', final (Citizen_dtor 100 shoe_built) = Some s' ∧
        deletions (fired s') = deletions (fired shoe_built).
Proof.
  split; [reflexivity|].
  apply (proj2 (delete_watch 100 shoe_built shoe eq_refl)). by vm_compute.
Defined.

Example delete_watch_armed :
  ∃ armed s', setDeleteCallbackId 1 shoe_built = Val 0 armed ∧
              Citizen_dtor 100 armed = Val () s' ∧
              fired s' = [DeleteHook 100] ∧
              _activeCitizens s' !! 100 = None.
Proof. eexists _, _. repeat split; reflexivity. Qed.

(** ** The registration check of the destructor *)

Lemma erase_count (m : gmap N (N * N)) (k : N) :
  (table_erase m k).1 = 0 ∧ m !! k = None ∨
  (table_erase m k).1 = 1 ∧ is_Some (m !! k).
Proof. unfold table_erase. destruct (m !! k); simpl; eauto. Qed.

(** C2, as the code has it: after the erase the destructor invokes the
    corruption callback exactly when the count erased from the active
    table is greater than 1, or is 0 while the count erased from the
    persistent table is not 1; for a [std::map] that is when the object
    was in neither table.  A count of 0 with the object in the persistent
    table invokes nothing.  The sentinel has no part in the test: a
    destructor that gets past the sentinel check invokes one callback for
    a broken sentinel and one for a failed test, each on its own
    condition. *)
Theorem registration_check (this : addr) (s : State) (o : Citizen) :
  objects s !! this = Some o →
  let nActive := (table_erase (_activeCitizens s) this).1 in
  let nPersistent := (table_erase (_persistentCitizens s) this).1 in
  let failed :=
    bool_decide (1 < nActive ∨ (nActive = 0 ∧ nPersistent ≠ 1)) in
  failed = dangling this s ∧
  (∃ s1, dtor_erase this s = Val failed s1) ∧
  (intact o = true ∨ _corruptionCallback s this o ≠ Throws →
   ∃ s', final (dtor_finish this s) = Some s' ∧
         fired s' =
           fired s ++ (if intact o then [] else [CorruptionHook this]) ++
                      (if failed then [CorruptionHook this] else [])).
Proof.
  intros Ho nActive nPersistent failed.
  assert (Hfailed : failed = dangling this s).
  { unfold failed, dangling, nActive, nPersistent.
    apply bool_decide_ext.
    destruct (erase_count (_activeCitizens s) this) as [[-> Ha]|[-> [x Ha]]];
      destruct (erase_count (_persistentCitizens s) this)
        as [[-> Hp]|[-> [y Hp]]];
      rewrite Ha, Hp; split; try (intros [?|[? ?]]); try (intros [? ?]);
      try done; try lia; auto. }
  split; [done|]. split.
  { eexists. by rewrite dtor_erase_unfold, Hfailed. }
  intros Hret. rewrite (dtor_finish_unfold _ _ _ Ho), Hfailed.
  unfold finished.
  assert (Hgo : negb (intact o) &&
                bool_decide (_corruptionCallback s this o = Throws) = false).
  { destruct Hret as [->|Hcb]; [done|].
    rewrite (bool_decide_eq_false_2 _ Hcb). by destruct (intact o). }
  rewrite Hgo. unfold unregistered, erased, noting.
  destruct (intact o); (destruct (dangling this s);
    [destruct (_corruptionCallback s this (set_sentinel _ o))|]);
    eexists; (split; [reflexivity|]); simpl;
    by rewrite ?app_nil_r, <- ?app_assoc.
Qed.

Lemma registration_check_witness :
  objects shoe_built !! 100 = Some shoe ∧
  (∃ s1, dtor_erase 100 shoe_built = Val false s1) ∧
  ∃ s', final (dtor_finish 100 shoe_built) = Some s' ∧
        fired s' = fired shoe_built ++ [] ++ [].
Proof.
  split; [reflexivity|].
  destruct (registration_check 100 shoe_built shoe eq_refl) as (_ & H2 & H3).
  split; [exact H2|]. exact (H3 (or_introl eq_refl)).
Defined.

(** C2 as stated fails: for the [Shoe] built inside a persistence scope
    the count erased from the active table is 0, which is not 1, and the
    destructor invokes no callback. *)
Lemma persistent_destruction_invokes_nothing :
  (table_erase (_activeCitizens persistent_shoe) 100).1 ≠ 1 ∧
  (∃ s1, dtor_erase 100 persistent_shoe = Val false s1) ∧
  ∃ s', Citizen_dtor 100 persistent_shoe = Val () s' ∧
        fired persistent_shoe = [] ∧ fired s' = [].
Proof.
  split; [by vm_compute|]. split; [by eexists|].
  eexists. repeat split; reflexivity.
Qed.

(** ** Identity allocation *)

Lemma added_newCallback t c s : _newCallback (added t c s) = _newCallback s.
Proof.
  unfold added. pose proof (registered_frame t c s) as (_&_&Hn&_).
  destruct (_ =? _); [|done]. by destruct (_newCallback s _).
Qed.

Lemma added_perThreadId t c s t' :
  peekRef (perThreadId (added t c s)) t' =
    if decide (t = t') then memId_wrap (peekRef (perThreadId s) t + 1)
    else peekRef (perThreadId s) t'.
Proof.
  rewrite <- registered_perThreadId with (c := c). unfold added.
  destruct (_ =? _); [|done]. by destruct (_newCallback s _).
Qed.

(** A construction that the new-callback lets return gives the object the
    id that was next for the thread. *)
Lemma Citizen_ctor_returns t this type s :
  _newCallback s (peekRef (perThreadId s) t) ≠ Throws →
  let s' := set_objects
              (<[this := mkCitizen (to_int magicSentinel)
                           (peekRef (perThreadId s) t) type]> (objects s))
              (added t this s) in
  Citizen_ctor t this type s = Val () s' ∧
  getId this s' = Val (peekRef (perThreadId s) t) s'.
Proof.
  intros Hcb s'. rewrite Citizen_ctor_unfold, _addCitizen_outcome.
  rewrite (bool_decide_eq_false_2 _ Hcb), andb_false_r.
  destruct (added_tables t this s) as (_ & _ & Ho). rewrite Ho.
  split; [done|]. unfold getId, bind, deref, s'; simpl.
  by rewrite lookup_insert_eq.
Qed.

Lemma construct_all_ids t cs : ∀ s,
  (∀ cid, _newCallback s cid ≠ Throws) →
  cs = [] ∨ peekRef (perThreadId s) t + N.of_nat (length cs) ≤ memId_modulus →
  ∃ s', construct_all t cs s =
          Val ((λ i, peekRef (perThreadId s) t + N.of_nat i) <$>
                 seq 0 (length cs)) s'.
Proof.
  induction cs as [|[c type] cs IH]; intros s Hcb Hlen.
  { by exists s. }
  destruct Hlen as [?|Hlen]; [done|]. simpl in Hlen.
  destruct (Citizen_ctor_returns t c type s (Hcb _)) as [Hctor Hid].
  set (s1 := set_objects _ _) in Hctor, Hid.
  assert (Hnext : peekRef (perThreadId s1) t =
                  memId_wrap (peekRef (perThreadId s) t + 1)).
  { unfold s1; simpl. by rewrite added_perThreadId, decide_True. }
  destruct (IH s1) as [s' Hs'].
  { intros cid. unfold s1; simpl. rewrite added_newCallback. apply Hcb. }
  { destruct cs as [|x cs]; [by left|right]. rewrite Hnext.
    unfold memId_wrap. simpl length in *. rewrite N.mod_small; lia. }
  assert (Hlist :
    (λ i, peekRef (perThreadId s1) t + N.of_nat i) <$> seq 0 (length cs) =
    (λ i, peekRef (perThreadId s) t + N.of_nat i) <$> seq 1 (length cs)).
  { rewrite <- fmap_S_seq, <- list_fmap_compose. apply list_fmap_ext.
    intros i x Hix. unfold compose. destruct cs as [|y cs]; [done|].
    rewrite Hnext. unfold memId_wrap. simpl length in *.
    rewrite N.mod_small; lia. }
  rewrite Hlist in Hs'.
  exists s'. cbn [construct_all]. unfold bind at 1. rewrite Hctor.
  unfold bind at 1. rewrite Hid. unfold bind at 1. rewrite Hs'.
  unfold ret. f_equal. cbn [length seq fmap list_fmap]. f_equal.
  f_equal. lia.
Qed.

(** C4: [getNextMemId] returns the id the thread's next construction
    gets and changes no counter; [N] constructions in a row by that thread
    get that id and the [N - 1] integers after it, as long as the
    counter stays below its modulus and the new-callback returns. *)
Theorem consecutive_ids (t : pthread_t) (cs : list (addr * string))
    (s : State) :
  (∀ cid, _newCallback s cid ≠ Throws) →
  peekRef (perThreadId s) t + N.of_nat (length cs) ≤ memId_modulus →
  ∃ next s0 s',
    getNextMemId t s = Val next s0 ∧
    s0 = set_perThreadId (getRef (perThreadId s) t).2 s ∧
    (∀ t', peekRef (perThreadId s0) t' = peekRef (perThreadId s) t') ∧
    construct_all t cs s0 =
      Val ((λ i, next + N.of_nat i) <$> seq 0 (length cs)) s'.
Proof.
  intros Hcb Hlen.
  set (s0 := set_perThreadId (getRef (perThreadId s) t).2 s).
  assert (Hpeek : ∀ t', peekRef (perThreadId s0) t' = peekRef (perThreadId s) t').
  { intros t'. apply peekRef_getRef. }
  destruct (construct_all_ids t cs s0) as [s' Hs'].
  { done. }
  { right. by rewrite Hpeek. }
  exists (peekRef (perThreadId s) t), s0, s'. split.
  { unfold getNextMemId, _nextMemId.
    by rewrite (getRef_pair (perThreadId s) t). }
  split; [done|]. split; [done|]. by rewrite <- (Hpeek t).
Qed.

Lemma consecutive_ids_witness :
  (∀ cid, _newCallback initial cid ≠ Throws) ∧
  peekRef (perThreadId initial) 7 + 3 ≤ memId_modulus ∧
  ∃ s0 s', getNextMemId 7 initial = Val 1 s0 ∧
           construct_all 7 [(100, "Shoe"); (200, "Shoe"); (300, "MyClass")]
             s0 = Val [1; 2; 3] s'.
Proof.
  assert (H1 : ∀ cid, _newCallback initial cid ≠ Throws) by done.
  assert (H2 : peekRef (perThreadId initial) 7 +
               N.of_nat (length [(100, "Shoe"); (200, "Shoe");
                                 (300, "MyClass")]) ≤ memId_modulus).
  { by vm_compute. }
  split; [exact H1|]. split; [exact H2|].
  destruct (consecutive_ids 7 [(100, "Shoe"); (200, "Shoe"); (300, "MyClass")]
              initial H1 H2) as (next & s0 & s' & Hpeek & _ & _ & Hall).
  assert (next = 1) as -> by (by injection Hpeek).
  by exists s0, s'.
Defined.

(** At the top of its range the counter wraps: the id after [2^64 - 1]
    is 0. *)
Example counter_wraps :
  let s := set_perThreadId (putRef (perThreadId initial) 7 (2 ^ 64 - 1))
             initial in
  ∃ s', construct_all 7 [(100, "Shoe"); (200, "Shoe")] s =
          Val [2 ^ 64 - 1; 0] s'.
Proof. eexists. vm_compute. reflexivity. Qed.

(** ** The registry invariant *)

Lemma registry_inv_pointwise s :
  registry_inv s ↔
  ∀ p, match objects s !! p with
       | Some _ => in_one_table s p
       | None => in_no_table s p
       end.
Proof.
  unfold registry_inv, in_one_table, in_no_table. split.
  - intros [Hdisj Hdom] p.
    assert (Hp : p ∈ dom (_activeCitizens s) ∪ dom (_persistentCitizens s) ↔
                 p ∈ dom (objects s)) by by rewrite Hdom.
    rewrite elem_of_union, !elem_of_dom in Hp.
    specialize (Hdisj p). rewrite !elem_of_dom in Hdisj.
    rewrite <- !not_eq_None_Some in *.
    destruct (objects s !! p), (_activeCitizens s !! p),
      (_persistentCitizens s !! p); intuition (try done; try congruence).
  - intros H. split.
    + intros p. rewrite !elem_of_dom. specialize (H p).
      rewrite <- !not_eq_None_Some in *.
      destruct (objects s !! p), (_activeCitizens s !! p),
        (_persistentCitizens s !! p); intuition (try done; try congruence).
    + apply set_eq. intros p. rewrite elem_of_union, !elem_of_dom.
      specialize (H p). rewrite <- !not_eq_None_Some in *.
      destruct (objects s !! p), (_activeCitizens s !! p),
        (_persistentCitizens s !! p); intuition (try done; try congruence).
Qed.

Lemma registry_inv_initial : registry_inv initial.
Proof. by vm_compute. Defined.

Lemma dtor_watch_returns this s o s1 :
  objects s !! this = Some o →
  dtor_watch this s = Val () s1 →
  _activeCitizens s1 = _activeCitizens s ∧
  _persistentCitizens s1 = _persistentCitizens s ∧
  objects s1 = objects s.
Proof.
  intros Ho. rewrite (dtor_watch_unfold _ _ _ Ho).
  destruct (_ =? _); [|by intros [= <-]].
  destruct (_deleteCallback s this o); [|done]. by intros [= <-].
Qed.

(** A destructor that returns has erased its object from the tables. *)
Lemma Citizen_dtor_returns this s s' :
  Citizen_dtor this s = Val () s' →
  is_Some (objects s !! this) ∧
  _activeCitizens s' = delete this (_activeCitizens s) ∧
  _persistentCitizens s' =
    match _activeCitizens s !! this with
    | Some _ => _persistentCitizens s
    | None => delete this (_persistentCitizens s)
    end ∧
  objects s' = delete this (objects s).
Proof.
  destruct (objects s !! this) as [o|] eqn:Ho.
  - rewrite (Citizen_dtor_unfold _ _ _ Ho).
    destruct (dtor_watch this s) as [[] s1| |] eqn:Hw; [|done..].
    destruct (dtor_watch_returns _ _ _ _ Ho Hw) as (Ha & Hp & Hob).
    intros Hfin. apply finished_returns in Hfin as (_ & -> & -> & ->).
    by rewrite Ha, Hp, Hob.
  - unfold Citizen_dtor, bind, dtor_watch, bind, deref. by rewrite Ho.
Qed.

Lemma Citizen_ctor_tables t this type s s' :
  Citizen_ctor t this type s = Val () s' →
  (if peekRef (perThreadPersistFlag s) t
   then _persistentCitizens s' =
          <[this := (peekRef (perThreadId s) t, t)]> (_persistentCitizens s) ∧
        _activeCitizens s' = _activeCitizens s
   else _activeCitizens s' =
          <[this := (peekRef (perThreadId s) t, t)]> (_activeCitizens s) ∧
        _persistentCitizens s' = _persistentCitizens s) ∧
  dom (objects s') = {[this]} ∪ dom (objects s).
Proof.
  rewrite Citizen_ctor_unfold, _addCitizen_outcome.
  destruct (_ && _); [done|]. intros [= <-]. simpl.
  destruct (added_tables t this s) as (-> & -> & ->).
  rewrite registered_active, registered_persistent, dom_insert_L.
  by destruct (peekRef (perThreadPersistFlag s) t).
Qed.

Lemma Citizen_copy_ctor_as_ctor t this citizen s s' :
  Citizen_copy_ctor t this citizen s = Val () s' →
  ∃ type, Citizen_ctor t this type s = Val () s'.
Proof.
  unfold Citizen_copy_ctor, Citizen_ctor, bind, store, modify.
  destruct (_addCitizen t this s) as [cid s1| |]; [|done..].
  unfold deref. destruct (objects s1 !! citizen) as [o|]; [|done].
  intros [= <-]. by exists (_typeName o).
Qed.

Lemma registry_inv_ctor t this type s s' :
  registry_inv s →
  objects s !! this = None →
  Citizen_ctor t this type s = Val () s' →
  registry_inv s'.
Proof.
  intros [Hdisj Hdom] Hfresh Hctor.
  apply Citizen_ctor_tables in Hctor as [Htab Hobj].
  apply not_elem_of_dom in Hfresh. rewrite <- Hdom in Hfresh.
  unfold registry_inv. rewrite Hobj, <- Hdom.
  destruct (peekRef (perThreadPersistFlag s) t); destruct Htab as [-> ->];
    rewrite dom_insert_L; set_solver.
Qed.

Lemma registry_inv_markPersistent this s s' :
  registry_inv s →
  is_Some (objects s !! this) →
  markPersistent this s = Val () s' →
  registry_inv s'.
Proof.
  intros [Hdisj Hdom] Hlive. rewrite markPersistent_unfold. intros [= <-].
  apply elem_of_dom in Hlive. rewrite <- Hdom in Hlive.
  unfold registry_inv; simpl. rewrite dom_insert_L, dom_delete_L, <- Hdom.
  split; [set_solver|]. apply set_eq. intros p.
  destruct (decide (p = this)); set_solver.
Qed.

Lemma registry_inv_dtor this s s' :
  registry_inv s →
  Citizen_dtor this s = Val () s' →
  registry_inv s'.
Proof.
  intros [Hdisj Hdom] Hdtor.
  apply Citizen_dtor_returns in Hdtor as (_ & Ha & Hp & Ho).
  unfold registry_inv. rewrite Ha, Hp, Ho, !dom_delete_L, <- Hdom.
  destruct (_activeCitizens s !! this) as [x|] eqn:E.
  - assert (this ∈ dom (_activeCitizens s)) by (apply elem_of_dom; eauto).
    set_solver.
  - rewrite dom_delete_L. set_solver.
Qed.

(** The operations do return, short of an exception from a callback. *)
Lemma markPersistent_total this s : ∃ s', markPersistent this s = Val () s'.
Proof. eexists. apply markPersistent_unfold. Qed.

Lemma Citizen_dtor_total this s o :
  objects s !! this = Some o →
  (∀ o', _deleteCallback s this o' ≠ Throws) →
  (∀ o', _corruptionCallback s this o' ≠ Throws) →
  ∃ s', Citizen_dtor this s = Val () s'.
Proof.
  intros Ho Hdel Hcor. rewrite (Citizen_dtor_unfold _ _ _ Ho).
  rewrite (dtor_watch_unfold _ _ _ Ho).
  assert (Hfin : ∀ s1, _corruptionCallback s1 = _corruptionCallback s →
                       ∃ s', finished this o s1 = Val () s').
  { intros s1 Hcb. unfold finished. rewrite Hcb.
    rewrite (bool_decide_eq_false_2 _ (Hcor o)), andb_false_r.
    destruct (dangling this s1); [|by eexists].
    pose proof (Hcor (set_sentinel (to_int deadSentinel) o)) as Hc.
    destruct (_corruptionCallback s this _); [by eexists|done]. }
  destruct (_ =? _); [|by apply Hfin].
  pose proof (Hdel o) as Hd.
  destruct (_deleteCallback s this o); [by apply Hfin|done].
Qed.

(** C7, as the code has it: each operation on the registry that returns
    (no callback has thrown) keeps the tables
    disjoint and holding exactly the live objects: every live object is in
    exactly one table, and an address with no live object is in neither.
    So an object is in no table before its constructor has run and in one
    after, stays in one across [markPersistent], and is in one before its
    destructor has run and in none after. *)
Theorem registry_invariant (s s' : State) :
  registry_inv s →
  step s s' →
  registry_inv s' ∧
  (∀ p, match objects s' !! p with
        | Some _ => in_one_table s' p
        | None => in_no_table s' p
        end) ∧
  (∀ t this type,
      objects s !! this = None →
      Citizen_ctor t this type s = Val () s' →
      in_no_table s this ∧ in_one_table s' this) ∧
  (∀ this,
      is_Some (objects s !! this) →
      markPersistent this s = Val () s' →
      in_one_table s this ∧ in_one_table s' this) ∧
  (∀ this,
      Citizen_dtor this s = Val () s' →
      in_one_table s this ∧ in_no_table s' this).
Proof.
  intros Hinv Hstep. assert (Hinv' : registry_inv s').
  { destruct Hstep as [t this type Hfresh H|t this citizen Hfresh H
                      |this Hlive H|this H].
    - by eapply registry_inv_ctor.
    - apply Citizen_copy_ctor_as_ctor in H as [type H].
      by eapply registry_inv_ctor.
    - by eapply registry_inv_markPersistent.
    - by eapply registry_inv_dtor. }
  pose proof (proj1 (registry_inv_pointwise s) Hinv) as Hpt.
  pose proof (proj1 (registry_inv_pointwise s') Hinv') as Hpt'.
  split; [done|]. split; [done|]. split; [|split].
  - intros t this type Hfresh Hctor.
    specialize (Hpt this). specialize (Hpt' this). rewrite Hfresh in Hpt.
    split; [done|]. apply Citizen_ctor_tables in Hctor as [_ Hdom].
    assert (is_Some (objects s' !! this)) as [o Ho].
    { apply elem_of_dom. rewrite Hdom. set_solver. }
    by rewrite Ho in Hpt'.
  - intros this [o Ho] Hmark.
    specialize (Hpt this). specialize (Hpt' this). rewrite Ho in Hpt.
    split; [done|]. rewrite markPersistent_unfold in Hmark.
    injection Hmark as <-. simpl in Hpt'. by rewrite Ho in Hpt'.
  - intros this Hdtor.
    apply Citizen_dtor_returns in Hdtor as ([o Ho] & _ & _ & Hobj).
    specialize (Hpt this). specialize (Hpt' this). rewrite Ho in Hpt.
    split; [done|]. by rewrite Hobj, lookup_delete_eq in Hpt'.
Qed.

Lemma registry_invariant_witness :
  registry_inv initial ∧ step initial shoe_built ∧
  registry_inv shoe_built ∧
  in_no_table initial 100 ∧ in_one_table shoe_built 100.
Proof.
  assert (Hstep : step initial shoe_built).
  { by apply (step_ctor _ _ 7 100 "Shoe"). }
  split; [apply registry_inv_initial|]. split; [done|].
  destruct (registry_invariant initial shoe_built registry_inv_initial Hstep)
    as (Hinv & _ & Hctor & _ & _).
  split; [done|]. by apply (Hctor 7 100 "Shoe").
Defined.

(** C7 as stated fails for a constructor that does not return: the entry
    is inserted before the new-callback is invoked, so when the callback
    throws on the watched id the address is in the active table although
    no object was constructed there. *)
Lemma throwing_constructor_breaks_invariant :
  registry_inv new_callback_throws ∧
  objects new_callback_throws !! 100 = None ∧
  ∃ s', Citizen_ctor 7 100 "Shoe" new_callback_throws = Throw s' ∧
        objects s' !! 100 = None ∧
        _activeCitizens s' !! 100 = Some (1, 7) ∧
        ¬ in_no_table s' 100 ∧
        ¬ registry_inv s'.
Proof.
  split; [apply (bool_decide_unpack _); by vm_compute|].
  split; [reflexivity|].
  eexists. split; [reflexivity|]. split; [reflexivity|].
  split; [reflexivity|].
  assert (Hin : ¬ in_no_table
                    (added 7 100 new_callback_throws) 100).
  { intros [Hact _]. vm_compute in Hact. discriminate. }
  split; [exact Hin|]. intros Hinv. apply Hin.
  exact (proj1 (registry_inv_pointwise _) Hinv 100).
Qed.

(** ** Census *)

Lemma sort_insert_Permutation {A} (cmp : A → A → bool) x l :
  sort_insert cmp x l ≡ₚ x :: l.
Proof.
  induction l as [|y l IH]; simpl; [done|].
  destruct (cmp x y); [done|]. rewrite IH. apply Permutation_swap.
Qed.

Lemma std_sort_Permutation {A} (cmp : A → A → bool) l : std_sort cmp l ≡ₚ l.
Proof.
  induction l as [|x l IH]; simpl; [done|].
  by rewrite sort_insert_Permutation, IH.
Qed.

Section sorted_by_id.
Variable s : State.

Let live (c : addr) : Prop := is_Some (idOf s c).

Lemma cmpId_true a b : live a → live b → cmpId s a b = true → id_le s a b.
Proof.
  intros [x Hx] [y Hy]. unfold cmpId, id_le. rewrite Hx, Hy.
  intros H%N.ltb_lt. exists x, y. repeat split; lia.
Qed.

Lemma cmpId_false a b : live a → live b → cmpId s a b = false → id_le s b a.
Proof.
  intros [x Hx] [y Hy]. unfold cmpId, id_le. rewrite Hx, Hy.
  intros H%N.ltb_ge. exists y, x. repeat split; lia.
Qed.

Global Instance id_le_trans : Transitive (id_le s).
Proof.
  intros a b c (x & y & Hx & Hy & Hxy) (y' & z & Hy' & Hz & Hyz).
  rewrite Hy in Hy'. injection Hy' as <-. exists x, z. repeat split; [done..|lia].
Qed.

Lemma sort_insert_Sorted x l :
  live x → Forall live l →
  Sorted (id_le s) l → Sorted (id_le s) (sort_insert (cmpId s) x l).
Proof.
  intros Hx Hl Hs. induction Hs as [|y l Hs IH Hhd]; simpl.
  { by repeat constructor. }
  apply Forall_cons in Hl as [Hy Hl].
  destruct (cmpId s x y) eqn:E.
  - constructor; [by constructor|]. constructor. by apply cmpId_true.
  - constructor; [by apply IH|].
    destruct Hhd as [|z l Hyz]; simpl.
    + constructor. by apply cmpId_false.
    + destruct (cmpId s x z); constructor; [by apply cmpId_false|done].
Qed.

Lemma std_sort_Sorted l :
  Forall live l → Sorted (id_le s) (std_sort (cmpId s) l).
Proof.
  induction l as [|x l IH]; simpl; [constructor|].
  intros [Hx Hl]%Forall_cons. apply sort_insert_Sorted; [done| |by apply IH].
  by rewrite std_sort_Permutation.
Qed.

Lemma census_collect_filter m keys :
  Forall live keys →
  census_collect s m keys = Some (filter (qualifies s m) keys).
Proof.
  induction keys as [|c keys IH]; [done|].
  intros [[id Hc] Hl]%Forall_cons. simpl. rewrite Hc, (IH Hl). simpl.
  f_equal. rewrite filter_cons.
  destruct (N.leb_spec m id) as [Hle|Hlt].
  - rewrite decide_True; [done|]. by exists id.
  - rewrite decide_False; [done|]. intros (id' & Hid' & ?).
    rewrite Hc in Hid'. injection Hid' as <-. lia.
Qed.

Lemma count_loop_filter m keys : ∀ n : Z,
  Forall live keys →
  (0 ≤ n)%Z →
  (n + Z.of_nat (length (filter (qualifies s m) keys)) ≤ INT_MAX)%Z →
  count_loop s m keys n =
    Some (n + Z.of_nat (length (filter (qualifies s m) keys)))%Z.
Proof.
  induction keys as [|c keys IH]; intros n Hl Hn Hmax.
  { simpl. f_equal. lia. }
  apply Forall_cons in Hl as [[id Hc] Hl]. simpl. rewrite Hc. simpl.
  rewrite filter_cons in Hmax |- *.
  destruct (N.leb_spec m id) as [Hle|Hlt].
  - rewrite decide_True in Hmax |- * by by exists id.
    simpl length in *. destruct (Z.ltb_spec n INT_MAX); [|lia].
    rewrite IH; [f_equal; lia|done|lia|lia].
  - assert (¬ qualifies s m c) as Hnq.
    { intros (id' & Hid' & ?). rewrite Hc in Hid'. injection Hid' as <-. lia. }
    rewrite decide_False in Hmax |- * by done. by apply IH.
Qed.
End sorted_by_id.

Lemma table_iter_Permutation (m : gmap N (N * N)) :
  table_iter m ≡ₚ (map_to_list m).*1.
Proof. apply merge_sort_Permutation. Qed.

Lemma elem_of_table_iter (m : gmap N (N * N)) c :
  c ∈ table_iter m ↔ is_Some (m !! c).
Proof.
  rewrite table_iter_Permutation, list_elem_of_fmap. split.
  - intros ([k v] & -> & H%elem_of_map_to_list). by exists v.
  - intros [v H]. exists (c, v). by rewrite elem_of_map_to_list.
Qed.

Lemma NoDup_table_iter (m : gmap N (N * N)) : NoDup (table_iter m).
Proof. rewrite table_iter_Permutation. apply NoDup_fst_map_to_list. Qed.

Lemma length_table_iter (m : gmap N (N * N)) : length (table_iter m) = size m.
Proof.
  by rewrite table_iter_Permutation, length_fmap, length_map_to_list.
Qed.

Lemma filter_all {A} (P : A → Prop) `{∀ x, Decision (P x)} (l : list A) :
  Forall P l → filter P l = l.
Proof.
  induction 1 as [|x l Hx Hl IH]; [done|].
  by rewrite filter_cons, decide_True, IH.
Qed.

(** C3: when every key of the active table points to a live object (and
    the table has no more entries than an [int] counts), [census] returns
    the keys of the active table whose object has an id of at least
    [startingMemId], each once, in ascending order of id; with
    [startingMemId] 0 that is every key of the active table; a key of the
    persistent table alone is never among them; and [countCitizens]
    returns their number. *)
Theorem census_lists_active (startingMemId : memId) (s : State) :
  (∀ c, is_Some (_activeCitizens s !! c) → is_Some (objects s !! c)) →
  (Z.of_nat (size (_activeCitizens s)) ≤ INT_MAX)%Z →
  ∃ l, census startingMemId s = Some l ∧
       StronglySorted (id_le s) l ∧
       NoDup l ∧
       (∀ c, c ∈ l ↔
             ∃ info o, _activeCitizens s !! c = Some info ∧
                       objects s !! c = Some o ∧
                       startingMemId ≤ _CitizenId o) ∧
       (startingMemId = 0 → ∀ c, c ∈ l ↔ is_Some (_activeCitizens s !! c)) ∧
       (∀ c, _activeCitizens s !! c = None → c ∉ l) ∧
       countCitizens startingMemId s = Some (N.of_nat (length l)).
Proof.
  intros Hlive Hsize.
  set (keys := table_iter (_activeCitizens s)).
  assert (Hkeys : Forall (λ c, is_Some (idOf s c)) keys).
  { apply Forall_forall. intros c Hc%elem_of_table_iter.
    unfold idOf. destruct (Hlive c Hc) as [o ->]. by eexists. }
  set (vec := filter (qualifies s startingMemId) keys).
  assert (Hvec : Forall (λ c, is_Some (idOf s c)) vec).
  { apply Forall_forall. intros c [_ Hc]%list_elem_of_filter.
    revert c Hc. by apply Forall_forall. }
  assert (Hperm : std_sort (cmpId s) vec ≡ₚ vec) by apply std_sort_Permutation.
  assert (Hin : ∀ c, c ∈ std_sort (cmpId s) vec ↔
                     ∃ info o, _activeCitizens s !! c = Some info ∧
                               objects s !! c = Some o ∧
                               startingMemId ≤ _CitizenId o).
  { intros c. rewrite Hperm. unfold vec, keys.
    rewrite list_elem_of_filter, elem_of_table_iter. unfold qualifies, idOf.
    split.
    - intros [(id & Hid & Hle) [info Hinfo]].
      destruct (objects s !! c) as [o|] eqn:Ho; [|done].
      injection Hid as <-. by exists info, o.
    - intros (info & o & Hinfo & Ho & Hle). rewrite Ho. split; [|by eexists].
      by exists (_CitizenId o). }
  exists (std_sort (cmpId s) vec). split.
  { unfold census. fold keys. by rewrite census_collect_filter. }
  split.
  { apply Sorted_StronglySorted; [apply _|]. by apply std_sort_Sorted. }
  split.
  { rewrite Hperm. apply NoDup_filter, NoDup_table_iter. }
  split; [done|]. split.
  { intros -> c. rewrite Hin. split.
    - intros (info & _ & Hinfo & _). by eexists.
    - intros [info Hinfo]. destruct (Hlive c) as [o Ho]; [by eexists|].
      exists info, o. repeat split; [done..|lia]. }
  split.
  { intros c Hc. rewrite Hin. intros (info & _ & Hinfo & _). congruence. }
  assert (Hlen : (length vec ≤ size (_activeCitizens s))%nat).
  { rewrite <- length_table_iter. apply length_filter. }
  rewrite Hperm. unfold countCitizens.
  destruct (N.eqb_spec startingMemId 0) as [->|Hne].
  - do 2 f_equal. rewrite <- length_table_iter. fold keys. unfold vec.
    f_equal. symmetry. apply filter_all.
    eapply Forall_impl; [exact Hkeys|]. intros c [id Hid]. exists id.
    split; [done|lia].
  - fold keys. rewrite (count_loop_filter s startingMemId keys 0 Hkeys);
      fold vec; [|lia..]. simpl. f_equal. lia.
Qed.

Lemma registry_inv_live s c :
  registry_inv s →
  is_Some (_activeCitizens s !! c) → is_Some (objects s !! c).
Proof.
  intros [_ Hdom] Hc. apply elem_of_dom. rewrite <- Hdom.
  apply elem_of_union_l. by apply elem_of_dom.
Qed.

Lemma second_destroyed_inv : registry_inv second_destroyed.
Proof. by vm_compute. Defined.

Lemma census_lists_active_witness :
  (Z.of_nat (size (_activeCitizens second_destroyed)) ≤ INT_MAX)%Z ∧
  ∃ l, census 2 second_destroyed = Some l ∧
       (∀ c, c ∈ l ↔
             ∃ info o, _activeCitizens second_destroyed !! c = Some info ∧
                       objects second_destroyed !! c = Some o ∧
                       2 ≤ _CitizenId o) ∧
       countCitizens 2 second_destroyed = Some (N.of_nat (length l)).
Proof.
  assert (Hsize : (Z.of_nat (size (_activeCitizens second_destroyed))
                   ≤ INT_MAX)%Z) by by vm_compute.
  split; [exact Hsize|].
  destruct (census_lists_active 2 second_destroyed
              (λ c, registry_inv_live _ c second_destroyed_inv) Hsize)
    as (l & Hl & _ & _ & Hin & _ & _ & Hcount).
  by exists l.
Defined.

(** The scenario of the specification: of three objects built in a row
    the second is destroyed; two are left, listed in order of id, and one
    of them has an id of at least that of the third. *)
Example census_after_destruction :
  census 0 second_destroyed = Some [100; 300] ∧
  countCitizens 0 second_destroyed = Some 2 ∧
  countCitizens 3 second_destroyed = Some 1 ∧
  census 3 second_destroyed = Some [300].
Proof. repeat split; reflexivity. Qed.

(** A persistent object is not in the census. *)
Example census_skips_persistent :
  census 0 persistent_shoe = Some [] ∧
  countCitizens 0 persistent_shoe = Some 0 ∧
  countCitizens 1 persistent_shoe = Some 0.
Proof. repeat split; reflexivity. Qed.

(** * Further properties *)

(** ** The test case of the package *)

(** The checks of tests/citizen.cc, with [firstId] the value
    [getNextMemId()] returns once [x] is built; the watches at id 2 fire
    the default callbacks for [y]. *)
Example test_all :
  getNextMemId 7 test_x_built = Val 2 test_x_built ∧
  countCitizens 0 test_in_foo = Some 5 ∧
  (length <$> census 0 test_after_foo) = Some 4%nat ∧
  countCitizens 0 test_after_foo = Some 4 ∧
  countCitizens 2 test_after_foo = Some 3 ∧
  countCitizens 2 test_x_persistent = Some 3 ∧
  countCitizens 2 test_end = Some 0 ∧
  census 2 test_end = Some [] ∧
  fired test_end = [NewHook 2; DeleteHook 200].
Proof. vm_compute. repeat split; reflexivity. Qed.

(** ** Census, in closed form *)

Lemma active_live_idOf s :
  active_live s →
  Forall (λ c, is_Some (idOf s c)) (table_iter (_activeCitizens s)).
Proof.
  intros Hlive. apply Forall_forall. intros c Hc%elem_of_table_iter.
  unfold idOf. destruct (Hlive c Hc) as [o ->]. by eexists.
Qed.

Lemma census_eq m s :
  active_live s → census m s = Some (std_sort (cmpId s) (census_vec s m)).
Proof.
  intros Hlive. unfold census, census_vec.
  by rewrite census_collect_filter by by apply active_live_idOf.
Qed.

Lemma size_census_vec m s :
  (length (census_vec s m) ≤ size (_activeCitizens s))%nat.
Proof. rewrite <- length_table_iter. apply length_filter. Qed.

Lemma census_vec_0 s :
  active_live s → census_vec s 0 = table_iter (_activeCitizens s).
Proof.
  intros Hlive. apply filter_all.
  eapply Forall_impl; [by apply active_live_idOf|].
  intros c [id Hid]. exists id. split; [done|lia].
Qed.

Lemma countCitizens_eq m s :
  active_live s →
  (Z.of_nat (size (_activeCitizens s)) ≤ INT_MAX)%Z →
  countCitizens m s = Some (N.of_nat (length (census_vec s m))).
Proof.
  intros Hlive Hsize. pose proof (size_census_vec m s) as Hlen.
  unfold countCitizens. destruct (N.eqb_spec m 0) as [->|Hne].
  - by rewrite census_vec_0, length_table_iter.
  - rewrite (count_loop_filter s m _ 0 (active_live_idOf s Hlive));
      fold (census_vec s m); [|lia..]. simpl. f_equal. lia.
Qed.

Lemma elem_of_census_vec s m c :
  c ∈ census_vec s m ↔
  is_Some (_activeCitizens s !! c) ∧ qualifies s m c.
Proof.
  unfold census_vec. rewrite list_elem_of_filter, elem_of_table_iter. tauto.
Qed.

Lemma NoDup_census_vec s m : NoDup (census_vec s m).
Proof. apply NoDup_filter, NoDup_table_iter. Qed.

(** Two duplicate-free lists, one with the members of the other and [x]
    besides. *)
Lemma length_NoDup_cons {A} (x : A) (l1 l2 : list A) :
  NoDup l1 → NoDup l2 → x ∉ l2 →
  (∀ c, c ∈ l1 ↔ c = x ∨ c ∈ l2) →
  length l1 = S (length l2).
Proof.
  intros H1 H2 Hx Hin.
  assert (l1 ≡ₚ x :: l2) as ->; [|done].
  apply NoDup_Permutation; [done|by constructor|].
  intros c. by rewrite elem_of_cons.
Qed.

Lemma length_NoDup_same {A} (l1 l2 : list A) :
  NoDup l1 → NoDup l2 → (∀ c, c ∈ l1 ↔ c ∈ l2) → length l1 = length l2.
Proof. intros H1 H2 Hin. by rewrite (NoDup_Permutation l1 l2). Qed.

(** ** [markPersistent] on an active object *)

(** X1: [markPersistent] on an object of the active table moves its entry,
    as it is, to the persistent table and leaves the object alone; the
    census is from then on the one before without this object, and the
    count is one less if the object counted. *)
Theorem markPersistent_leaves_census (this : addr) (info : N * N)
    (m : memId) (s : State) :
  active_live s →
  (Z.of_nat (size (_activeCitizens s)) ≤ INT_MAX)%Z →
  _activeCitizens s !! this = Some info →
  ∃ s' l l' n,
    markPersistent this s = Val () s' ∧
    _persistentCitizens s' !! this = Some info ∧
    _activeCitizens s' !! this = None ∧
    objects s' = objects s ∧
    census m s = Some l ∧
    census m s' = Some l' ∧
    (∀ c, c ∈ l' ↔ c ∈ l ∧ c ≠ this) ∧
    countCitizens m s = Some n ∧
    countCitizens m s' =
      Some (n - if decide (qualifies s m this) then 1 else 0).
Proof.
  intros Hlive Hsize Hinfo.
  set (s' := set_activeCitizens (delete this (_activeCitizens s))
               (set_persistentCitizens
                  (<[this := info]> (_persistentCitizens s)) s)).
  assert (Hmark : markPersistent this s = Val () s').
  { rewrite markPersistent_unfold. by rewrite Hinfo. }
  assert (Hlive' : active_live s').
  { intros c [x Hc]. apply Hlive. simpl in Hc.
    apply lookup_delete_Some in Hc as [_ Hc]. by eexists. }
  assert (Hsize' : (Z.of_nat (size (_activeCitizens s')) ≤ INT_MAX)%Z).
  { simpl. pose proof (map_size_delete this (_activeCitizens s)) as Hd.
    rewrite Hinfo in Hd. lia. }
  assert (Hvec : ∀ c, c ∈ census_vec s' m ↔ c ∈ census_vec s m ∧ c ≠ this).
  { intros c. rewrite !elem_of_census_vec. simpl.
    change (qualifies s' m c) with (qualifies s m c).
    destruct (decide (c = this)) as [->|Hne].
    - rewrite lookup_delete_eq. split; [by intros [[? [=]] _]|by intros [_ ?]].
    - rewrite lookup_delete_ne by done. tauto. }
  exists s', (std_sort (cmpId s) (census_vec s m)),
    (std_sort (cmpId s') (census_vec s' m)),
    (N.of_nat (length (census_vec s m))).
  split; [done|]. split; [by simpl; rewrite lookup_insert_eq|].
  split; [by simpl; rewrite lookup_delete_eq|]. split; [done|].
  split; [by apply census_eq|]. split; [by apply census_eq|]. split.
  { intros c. by rewrite !std_sort_Permutation. }
  split; [by apply countCitizens_eq|].
  rewrite countCitizens_eq by done. f_equal.
  destruct (decide (qualifies s m this)) as [Hq|Hq].
  - rewrite (length_NoDup_cons this (census_vec s m) (census_vec s' m)).
    + lia.
    + apply NoDup_census_vec.
    + apply NoDup_census_vec.
    + rewrite Hvec. by intros [_ ?].
    + intros c. rewrite Hvec. destruct (decide (c = this)) as [->|Hne].
      * split; [by left|]. intros _. apply elem_of_census_vec.
        split; [by eexists|done].
      * split; [by right|]. by intros [?|[? _]].
  - rewrite (length_NoDup_same (census_vec s' m) (census_vec s m)).
    + lia.
    + apply NoDup_census_vec.
    + apply NoDup_census_vec.
    + intros c. rewrite Hvec. split; [by intros [? _]|].
      intros Hc. split; [done|]. intros ->.
      apply elem_of_census_vec in Hc as [_ ?]. done.
Qed.

Lemma test_after_foo_inv : registry_inv test_after_foo.
Proof. by vm_compute. Defined.

Lemma markPersistent_leaves_census_witness :
  active_live test_after_foo ∧
  (Z.of_nat (size (_activeCitizens test_after_foo)) ≤ INT_MAX)%Z ∧
  _activeCitizens test_after_foo !! 100 = Some (1, 7) ∧
  ∃ s' l l' n,
    markPersistent 100 test_after_foo = Val () s' ∧
    census 0 test_after_foo = Some l ∧
    census 0 s' = Some l' ∧
    (∀ c, c ∈ l' ↔ c ∈ l ∧ c ≠ 100) ∧
    countCitizens 0 test_after_foo = Some n ∧
    countCitizens 0 s' =
      Some (n - if decide (qualifies test_after_foo 0 100) then 1 else 0).
Proof.
  assert (H1 : active_live test_after_foo).
  { intros c. apply registry_inv_live, test_after_foo_inv. }
  assert (H2 : (Z.of_nat (size (_activeCitizens test_after_foo))
                ≤ INT_MAX)%Z) by by vm_compute.
  assert (H3 : _activeCitizens test_after_foo !! 100 = Some (1, 7))
    by reflexivity.
  split; [exact H1|]. split; [exact H2|]. split; [exact H3|].
  destruct (markPersistent_leaves_census 100 (1, 7) 0 test_after_foo H1 H2 H3)
    as (s' & l & l' & n & Hmark & _ & _ & _ & Hl & Hl' & Hin & Hn & Hn').
  exists s', l, l', n.
  exact (conj Hmark (conj Hl (conj Hl' (conj Hin (conj Hn Hn'))))).
Defined.

(** ** How construction and destruction move the count *)

Lemma Citizen_ctor_Val t this type s s' :
  Citizen_ctor t this type s = Val () s' →
  s' = set_objects
         (<[this := mkCitizen (to_int magicSentinel)
                      (peekRef (perThreadId s) t) type]> (objects s))
         (added t this s).
Proof.
  rewrite Citizen_ctor_unfold, _addCitizen_outcome.
  destruct (_ && _); [done|]. intros [= <-].
  by destruct (added_tables t this s) as (_ & _ & ->).
Qed.

Lemma qualifies_idOf s s' m c :
  idOf s' c = idOf s c → qualifies s' m c ↔ qualifies s m c.
Proof. unfold qualifies. by intros ->. Qed.

(** The census after an entry has left the active table. *)
Lemma census_vec_delete s s' m this :
  _activeCitizens s' = delete this (_activeCitizens s) →
  (∀ c, c ≠ this → idOf s' c = idOf s c) →
  (∀ c, c ∈ census_vec s' m ↔ c ∈ census_vec s m ∧ c ≠ this) ∧
  length (census_vec s' m) =
    (length (census_vec s m) -
     if decide (is_Some (_activeCitizens s !! this) ∧ qualifies s m this)
     then 1 else 0)%nat.
Proof.
  intros Hact Hid.
  assert (Hvec : ∀ c, c ∈ census_vec s' m ↔ c ∈ census_vec s m ∧ c ≠ this).
  { intros c. rewrite !elem_of_census_vec, Hact.
    destruct (decide (c = this)) as [->|Hne].
    - rewrite lookup_delete_eq. split; [by intros [[? [=]] _]|by intros [_ ?]].
    - rewrite lookup_delete_ne, (qualifies_idOf s s') by auto. tauto. }
  split; [done|]. case_decide as Hq.
  - rewrite (length_NoDup_cons this (census_vec s m) (census_vec s' m)).
    + lia.
    + apply NoDup_census_vec.
    + apply NoDup_census_vec.
    + rewrite Hvec. by intros [_ ?].
    + intros c. rewrite Hvec. destruct (decide (c = this)) as [->|Hne].
      * split; [by left|]. intros _. by apply elem_of_census_vec.
      * split; [by right|]. by intros [?|[? _]].
  - rewrite (length_NoDup_same (census_vec s' m) (census_vec s m)).
    + lia.
    + apply NoDup_census_vec.
    + apply NoDup_census_vec.
    + intros c. rewrite Hvec. split; [by intros [? _]|].
      intros Hc. split; [done|]. intros ->.
      by apply elem_of_census_vec in Hc.
Qed.




(** X3: a destruction that returns takes one from [countCitizens] when
    the object was in the active table with an id of at least
    [startingMemId], and leaves it as it is otherwise (a persistent
    object, or one below [startingMemId]). *)
Theorem destruction_counts (this : addr) (m : memId) (s s' : State) :
  active_live s →
  (Z.of_nat (size (_activeCitizens s)) ≤ INT_MAX)%Z →
  Citizen_dtor this s = Val () s' →
  ∃ n, countCitizens m s = Some n ∧
       countCitizens m s' =
         Some (n - if decide (is_Some (_activeCitizens s !! this) ∧
                              qualifies s m this)
                   then 1 else 0).
Proof.
  intros Hlive Hsize Hdtor.
  apply Citizen_dtor_returns in Hdtor as (_ & Hact & _ & Hobj).
  assert (Hlive' : active_live s').
  { intros c Hc. rewrite Hact in Hc. rewrite Hobj.
    destruct (decide (c = this)) as [->|Hne].
    - rewrite lookup_delete_eq in Hc. by destruct Hc.
    - rewrite lookup_delete_ne in Hc by done.
      rewrite lookup_delete_ne by done. by apply Hlive. }
  assert (Hsize' : (Z.of_nat (size (_activeCitizens s')) ≤ INT_MAX)%Z).
  { rewrite Hact. pose proof (map_size_delete this (_activeCitizens s)) as Hd.
    destruct (_activeCitizens s !! this); simpl in Hd; unfold id in Hd; lia. }
  exists (N.of_nat (length (census_vec s m))).
  split; [by apply countCitizens_eq|].
  rewrite countCitizens_eq by done. f_equal.
  destruct (census_vec_delete s s' m this Hact) as [_ ->].
  { intros c Hne. unfold idOf. by rewrite Hobj, lookup_delete_ne. }
  case_decide; lia.
Qed.


Lemma destruction_counts_witness :
  ∃ n, countCitizens 0 test_in_foo = Some n ∧
       countCitizens 0 test_after_foo = Some (n - 1).
Proof.
  apply (destruction_counts 400 0 test_in_foo test_after_foo).
  - intros c. apply registry_inv_live. by vm_compute.
  - by vm_compute.
  - reflexivity.
Defined.

(** ** The scan of all registered objects *)

Lemma _hasBeenCorrupted_false c s s1 :
  _hasBeenCorrupted c s = Val false s1 →
  s1 = s ∧ ∃ o, objects s !! c = Some o ∧ intact o = true.
Proof.
  destruct (objects s !! c) as [o|] eqn:Ho.
  - rewrite (_hasBeenCorrupted_unfold _ _ _ Ho).
    destruct (intact o) eqn:E.
    + intros [= <-]. split; [done|]. by exists o.
    + by destruct (_corruptionCallback s c o).
  - unfold _hasBeenCorrupted, bind, deref. by rewrite Ho.
Qed.

Lemma scan_false keys : ∀ s s1,
  scan keys s = Val false s1 →
  s1 = s ∧ ∀ c, c ∈ keys → ∃ o, objects s !! c = Some o ∧ intact o = true.
Proof.
  induction keys as [|k keys IH]; intros s s1; simpl.
  { intros [= <-]. split; [done|]. by intros c ?%elem_of_nil. }
  unfold bind.
  destruct (_hasBeenCorrupted k s) as [[] s2|s2|] eqn:Hk; [done| |done..].
  apply _hasBeenCorrupted_false in Hk as [-> Hko].
  intros [-> Hkeys]%IH. split; [done|].
  intros c [->|Hc]%elem_of_cons; auto.
Qed.

Lemma scan_intact keys s :
  (∀ c, c ∈ keys → ∃ o, objects s !! c = Some o ∧ intact o = true) →
  scan keys s = Val false s.
Proof.
  induction keys as [|k keys IH]; intros Hall; [done|]. simpl. unfold bind.
  destruct (Hall k) as (o & Ho & Hint); [by left|].
  rewrite (_hasBeenCorrupted_unfold _ _ _ Ho), Hint.
  apply IH. intros c Hc. apply Hall. by right.
Qed.

(** The scan stops at the first broken object. *)
Lemma scan_broken keys s c o rest :
  (∀ k, k ∈ keys → is_Some (objects s !! k)) →
  filter (broken s) keys = c :: rest →
  objects s !! c = Some o →
  scan keys s =
    match _corruptionCallback s c o with
    | Returns _ => Val true (noting (CorruptionHook c) s)
    | Throws => Throw (noting (CorruptionHook c) s)
    end.
Proof.
  induction keys as [|k keys IH]; intros Hlive Hfil Ho; [done|].
  rewrite filter_cons in Hfil. simpl. unfold bind.
  destruct (Hlive k) as [ok Hok]; [by left|].
  rewrite (_hasBeenCorrupted_unfold _ _ _ Hok).
  case_decide as Hb.
  - injection Hfil as -> _. destruct Hb as (o' & Ho' & Hint).
    rewrite Hok in Ho'. injection Ho' as <-. rewrite Ho in Hok.
    injection Hok as <-. rewrite Hint.
    by destruct (_corruptionCallback s c o).
  - destruct (intact ok) eqn:E.
    + apply IH; [|done..]. intros k' Hk'. apply Hlive. by right.
    + destruct Hb. by exists ok.
Qed.

Lemma scan_app l2 : ∀ l1 s,
  scan (l1 ++ l2) s =
    (b <- scan l1 ;; (if b : bool then ret true else scan l2)) s.
Proof.
  induction l1 as [|k l1 IH]; intros s; [done|]. simpl. unfold bind.
  destruct (_hasBeenCorrupted k s) as [[] s1|s1|]; [done| |done..].
  rewrite IH. reflexivity.
Qed.

Lemma hasBeenCorrupted_scan s : hasBeenCorrupted s = scan (scan_order s) s.
Proof.
  unfold hasBeenCorrupted, scan_order. rewrite scan_app.
  unfold bind, gets.
  destruct (scan (table_iter (_activeCitizens s)) s) as [[] s1|s1|] eqn:Hs;
    [done| |done..].
  apply scan_false in Hs as [-> _]. reflexivity.
Qed.

Lemma elem_of_scan_order s c :
  c ∈ scan_order s ↔
  is_Some (_activeCitizens s !! c) ∨ is_Some (_persistentCitizens s !! c).
Proof. unfold scan_order. by rewrite elem_of_app, !elem_of_table_iter. Qed.

(** X4: [hasBeenCorrupted()] returns false exactly when every object of
    either table is live with its sentinel intact, and then it has invoked
    no callback and changed nothing. *)
Theorem hasBeenCorrupted_false_iff (s : State) :
  (∀ s1, hasBeenCorrupted s = Val false s1 → s1 = s) ∧
  (hasBeenCorrupted s = Val false s ↔
   ∀ c, is_Some (_activeCitizens s !! c) ∨
        is_Some (_persistentCitizens s !! c) →
        ∃ o, objects s !! c = Some o ∧ _sentinel o = to_int magicSentinel).
Proof.
  rewrite hasBeenCorrupted_scan. split.
  { intros s1 H. by apply scan_false in H as [-> _]. }
  split.
  - intros [_ H]%scan_false c Hc%elem_of_scan_order.
    destruct (H c Hc) as (o & Ho & Hint). exists o. split; [done|].
    by apply bool_decide_eq_true in Hint.
  - intros H. apply scan_intact. intros c Hc%elem_of_scan_order.
    destruct (H c Hc) as (o & Ho & Hint). exists o. split; [done|].
    by apply bool_decide_eq_true.
Qed.

Lemma hasBeenCorrupted_false_iff_witness :
  hasBeenCorrupted test_after_foo = Val false test_after_foo.
Proof.
  apply (proj2 (hasBeenCorrupted_false_iff test_after_foo)).
  intros c Hc%elem_of_scan_order. revert c Hc. apply Forall_forall.
  vm_compute. repeat constructor; by eexists.
Defined.

(** X5: when every registered object is live and one of them has a broken
    sentinel, [hasBeenCorrupted()] invokes the corruption callback once, on
    a registered object with a broken sentinel (one of the active table if
    there is any), and then returns true; an exception of the callback
    propagates in its place. *)
Theorem hasBeenCorrupted_reports (s : State) :
  (∀ c, is_Some (_activeCitizens s !! c) ∨
        is_Some (_persistentCitizens s !! c) →
        is_Some (objects s !! c)) →
  (∃ c, (is_Some (_activeCitizens s !! c) ∨
         is_Some (_persistentCitizens s !! c)) ∧ broken s c) →
  ∃ c o,
    (is_Some (_activeCitizens s !! c) ∨
     is_Some (_persistentCitizens s !! c)) ∧
    objects s !! c = Some o ∧
    _sentinel o ≠ to_int magicSentinel ∧
    (∀ a, is_Some (_activeCitizens s !! a) → broken s a →
          is_Some (_activeCitizens s !! c)) ∧
    hasBeenCorrupted s =
      match _corruptionCallback s c o with
      | Returns _ => Val true (noting (CorruptionHook c) s)
      | Throws => Throw (noting (CorruptionHook c) s)
      end.
Proof.
  intros Hlive (c0 & Hreg0 & Hb0).
  destruct (filter (broken s) (scan_order s)) as [|c rest] eqn:Hfil.
  { assert (c0 ∈ filter (broken s) (scan_order s)) as Hin.
    { apply list_elem_of_filter. split; [done|]. by apply elem_of_scan_order. }
    rewrite Hfil in Hin. by apply elem_of_nil in Hin. }
  assert (c ∈ filter (broken s) (scan_order s)) as Hc by (rewrite Hfil; by left).
  apply list_elem_of_filter in Hc as [(o & Ho & Hint) Hc].
  exists c, o. split; [by apply elem_of_scan_order|]. split; [done|].
  split; [by apply bool_decide_eq_false in Hint|]. split.
  - intros a Ha Hba. unfold scan_order in Hfil. rewrite filter_app in Hfil.
    destruct (filter (broken s) (table_iter (_activeCitizens s)))
      as [|c' rest'] eqn:Hact.
    + assert (a ∈ filter (broken s) (table_iter (_activeCitizens s))) as Hin.
      { apply list_elem_of_filter. split; [done|]. by apply elem_of_table_iter. }
      rewrite Hact in Hin. by apply elem_of_nil in Hin.
    + injection Hfil as <- _. apply elem_of_table_iter.
      assert (c' ∈ filter (broken s) (table_iter (_activeCitizens s))) as Hin
        by (rewrite Hact; by left).
      by apply list_elem_of_filter in Hin as [_ ?].
  - rewrite hasBeenCorrupted_scan. eapply scan_broken; [|done..].
    intros k Hk%elem_of_scan_order. by apply Hlive.
Qed.

Lemma registry_inv_registered_live s c :
  registry_inv s →
  is_Some (_activeCitizens s !! c) ∨ is_Some (_persistentCitizens s !! c) →
  is_Some (objects s !! c).
Proof.
  intros [_ Hdom] Hc. apply elem_of_dom. rewrite <- Hdom.
  apply elem_of_union. by rewrite !elem_of_dom.
Qed.

Lemma persistent_shoe_scribbled_inv : registry_inv persistent_shoe_scribbled.
Proof. by vm_compute. Defined.

Lemma hasBeenCorrupted_reports_witness :
  ∃ c o,
    (is_Some (_activeCitizens persistent_shoe_scribbled !! c) ∨
     is_Some (_persistentCitizens persistent_shoe_scribbled !! c)) ∧
    objects persistent_shoe_scribbled !! c = Some o ∧
    _sentinel o ≠ to_int magicSentinel ∧
    (∀ a, is_Some (_activeCitizens persistent_shoe_scribbled !! a) →
          broken persistent_shoe_scribbled a →
          is_Some (_activeCitizens persistent_shoe_scribbled !! c)) ∧
    hasBeenCorrupted persistent_shoe_scribbled =
      match _corruptionCallback persistent_shoe_scribbled c o with
      | Returns _ =>
          Val true (noting (CorruptionHook c) persistent_shoe_scribbled)
      | Throws => Throw (noting (CorruptionHook c) persistent_shoe_scribbled)
      end.
Proof.
  apply (hasBeenCorrupted_reports persistent_shoe_scribbled).
  - intros c. apply registry_inv_registered_live,
      persistent_shoe_scribbled_inv.
  - exists 100. split; [right; by eexists|].
    exists (set_sentinel (to_int 0) shoe). split; reflexivity.
Defined.

(** A corrupted persistent object is found by the scan, which the default
    callback ends by an exception. *)
Example hasBeenCorrupted_persistent :
  hasBeenCorrupted persistent_shoe_scribbled =
    Throw (noting (CorruptionHook 100) persistent_shoe_scribbled) ∧
  census 0 persistent_shoe_scribbled = Some [].
Proof. split; reflexivity. Qed.

(** ** Threads *)

Lemma added_perThreadPersistFlag t c s t' :
  peekRef (perThreadPersistFlag (added t c s)) t' =
    peekRef (perThreadPersistFlag s) t'.
Proof.
  rewrite <- (registered_perThreadPersistFlag t c s t'). unfold added.
  destruct (_ =? _); [|done]. by destruct (_newCallback s _).
Qed.

Lemma Citizen_ctor_final t this type s :
  ∃ s', final (Citizen_ctor t this type s) = Some s' ∧
        perThreadId s' = perThreadId (added t this s) ∧
        perThreadPersistFlag s' = perThreadPersistFlag (added t this s) ∧
        _activeCitizens s' = _activeCitizens (added t this s) ∧
        _persistentCitizens s' = _persistentCitizens (added t this s).
Proof.
  rewrite Citizen_ctor_unfold, _addCitizen_outcome.
  destruct (_ && _); by eexists.
Qed.

(** X6: a construction by one thread, however it ends, leaves the next id
    and the persistence flag of every other thread as they were; so two
    threads whose counters stand at the same value (at 1, for threads
    that have built nothing yet) give their next objects the same id. *)
Theorem threads_do_not_share_ids (t t' : pthread_t) (a b : addr)
    (type type' : string) (s : State) :
  t ≠ t' →
  (∃ s', final (Citizen_ctor t a type s) = Some s' ∧
         peekRef (perThreadId s') t' = peekRef (perThreadId s) t' ∧
         peekRef (perThreadPersistFlag s') t' =
           peekRef (perThreadPersistFlag s) t') ∧
  (a ≠ b →
   (∀ cid, _newCallback s cid ≠ Throws) →
   peekRef (perThreadId s) t = peekRef (perThreadId s) t' →
   ∃ s1 s2, Citizen_ctor t a type s = Val () s1 ∧
            Citizen_ctor t' b type' s1 = Val () s2 ∧
            getId a s2 = Val (peekRef (perThreadId s) t) s2 ∧
            getId b s2 = Val (peekRef (perThreadId s) t) s2).
Proof.
  intros Hne. split.
  - destruct (Citizen_ctor_final t a type s) as (s' & Hfin & Hid & Hfl & _).
    exists s'. split; [done|]. rewrite Hid, Hfl, added_perThreadId,
      added_perThreadPersistFlag. by rewrite decide_False.
  - intros Hab Hcb Hsame.
    destruct (Citizen_ctor_returns t a type s (Hcb _)) as [Hctor Hid].
    set (s1 := set_objects _ _) in Hctor, Hid.
    assert (Hpeek : peekRef (perThreadId s1) t' = peekRef (perThreadId s) t).
    { unfold s1; simpl. by rewrite added_perThreadId, decide_False. }
    destruct (Citizen_ctor_returns t' b type' s1) as [Hctor' Hid'].
    { unfold s1 at 1; simpl. rewrite added_newCallback. apply Hcb. }
    set (s2 := set_objects _ _) in Hctor', Hid'.
    exists s1, s2. split; [done|]. split; [done|]. rewrite Hpeek in Hid'.
    split; [|done]. unfold getId, bind, deref, s2; simpl.
    rewrite lookup_insert_ne by done. by rewrite lookup_insert_eq.
Qed.

Lemma threads_do_not_share_ids_witness :
  ∃ s1 s2, Citizen_ctor 7 100 "Shoe" initial = Val () s1 ∧
           Citizen_ctor 8 200 "Shoe" s1 = Val () s2 ∧
           getId 100 s2 = Val 1 s2 ∧
           getId 200 s2 = Val 1 s2.
Proof.
  assert (H78 : (7 : N) ≠ 8) by done.
  apply (proj2 (threads_do_not_share_ids 7 8 100 200 "Shoe" "Shoe" initial H78));
    done.
Defined.

(** X7: entering or leaving a [PersistentCitizenScope] in one thread
    changes no table and no flag of another thread: a registration by
    another thread goes to the table it would have gone to. *)
Theorem scope_is_per_thread (t t' : pthread_t) (c : addr) (s : State) :
  t ≠ t' →
  ∃ s1 s2,
    PersistentCitizenScope_ctor t s = Val () s1 ∧
    PersistentCitizenScope_dtor t s = Val () s2 ∧
    peekRef (perThreadPersistFlag s1) t' = peekRef (perThreadPersistFlag s) t' ∧
    peekRef (perThreadPersistFlag s2) t' = peekRef (perThreadPersistFlag s) t' ∧
    _activeCitizens s1 = _activeCitizens s ∧
    _persistentCitizens s1 = _persistentCitizens s ∧
    _activeCitizens s2 = _activeCitizens s ∧
    _persistentCitizens s2 = _persistentCitizens s ∧
    _activeCitizens (added t' c s1) = _activeCitizens (added t' c s) ∧
    _persistentCitizens (added t' c s1) = _persistentCitizens (added t' c s) ∧
    final (_addCitizen t' c s1) = Some (added t' c s1).
Proof.
  intros Hne.
  assert (Hassign : ∀ b, ∃ s1,
    assign_shouldPersistCitizens t b s = Val () s1 ∧
    peekRef (perThreadPersistFlag s1) t' = peekRef (perThreadPersistFlag s) t' ∧
    perThreadId s1 = perThreadId s ∧
    _activeCitizens s1 = _activeCitizens s ∧
    _persistentCitizens s1 = _persistentCitizens s).
  { intros b. unfold assign_shouldPersistCitizens.
    rewrite (getRef_pair (perThreadPersistFlag s) t).
    eexists. split; [reflexivity|]. simpl.
    by rewrite peekRef_putRef, decide_False, peekRef_getRef. }
  destruct (Hassign true) as (s1 & E1 & Hf1 & Hi1 & Ha1 & Hp1).
  destruct (Hassign false) as (s2 & E2 & Hf2 & Hi2 & Ha2 & Hp2).
  exists s1, s2. do 8 (split; [done|]).
  destruct (added_tables t' c s1) as (-> & -> & _).
  destruct (added_tables t' c s) as (-> & -> & _).
  rewrite !registered_active, !registered_persistent, Hf1, Hi1, Ha1, Hp1.
  split; [done|]. split; [done|]. apply _addCitizen_final.
Qed.

Lemma scope_is_per_thread_witness :
  ∃ s1 s', PersistentCitizenScope_ctor 7 initial = Val () s1 ∧
           Citizen_ctor 8 200 "Shoe" s1 = Val () s' ∧
           _activeCitizens s' !! 200 = Some (1, 8) ∧
           _persistentCitizens s' !! 200 = None.
Proof.
  assert (H78 : (7 : N) ≠ 8) by done.
  destruct (scope_is_per_thread 7 8 200 initial H78)
    as (s1 & _ & E1 & _ & _ & _ & _ & _ & _ & _ & _ & _).
  injection E1 as <-. eexists _, _. repeat split; reflexivity.
Defined.

(** ** The copy constructor *)

(** X8: copying a live object builds, at a fresh address, an object with
    the thread's next id (not the id of the original), the type name of
    the original and an intact sentinel, registers it as any other
    construction would, and leaves the original as it was. *)
Theorem copy_gets_own_id (t : pthread_t) (this citizen : addr) (s : State)
    (o : Citizen) :
  objects s !! citizen = Some o →
  objects s !! this = None →
  _newCallback s (peekRef (perThreadId s) t) ≠ Throws →
  ∃ s', Citizen_copy_ctor t this citizen s = Val () s' ∧
        Citizen_ctor t this (_typeName o) s = Val () s' ∧
        objects s' !! this =
          Some (mkCitizen (to_int magicSentinel) (peekRef (perThreadId s) t)
                  (_typeName o)) ∧
        objects s' !! citizen = Some o.
Proof.
  intros Ho Hfresh Hcb.
  assert (Hne : citizen ≠ this) by (intros ->; congruence).
  destruct (Citizen_ctor_returns t this (_typeName o) s Hcb) as [Hctor _].
  set (s' := set_objects _ _) in Hctor. exists s'.
  assert (Hadd : _addCitizen t this s =
                 Val (peekRef (perThreadId s) t) (added t this s)).
  { rewrite _addCitizen_outcome.
    by rewrite (bool_decide_eq_false_2 _ Hcb), andb_false_r. }
  split.
  { unfold Citizen_copy_ctor, bind. rewrite Hadd. unfold deref, store, modify.
    destruct (added_tables t this s) as (_ & _ & Hobj).
    rewrite Hobj, Ho. unfold s'. by rewrite Hobj. }
  split; [done|]. unfold s'; simpl.
  split; [by rewrite lookup_insert_eq|]. by rewrite lookup_insert_ne.
Qed.

Lemma copy_gets_own_id_witness :
  ∃ s', Citizen_copy_ctor 7 200 100 shoe_built = Val () s' ∧
        objects s' !! 200 = Some (mkCitizen (to_int magicSentinel) 2 "Shoe") ∧
        objects s' !! 100 = Some shoe.
Proof.
  destruct (copy_gets_own_id 7 200 100 shoe_built shoe)
    as (s' & Hcopy & _ & H200 & H100); [reflexivity..|done|].
  exists s'. exact (conj Hcopy (conj H200 H100)).
Defined.

(** ** Exceptions *)

Lemma census_collect_Some s m keys vec :
  census_collect s m keys = Some vec →
  ∀ c, c ∈ keys → is_Some (idOf s c).
Proof.
  revert vec. induction keys as [|k keys IH]; intros vec.
  { by intros _ c ?%elem_of_nil. }
  simpl. destruct (idOf s k) as [id|] eqn:Hk; [|done]. simpl.
  destruct (census_collect s m keys) as [vec'|] eqn:Hkeys; [|done].
  intros _ c [->|Hc]%elem_of_cons; [by eexists|]. by eapply IH.
Qed.

(** X9: when the id a construction takes is the watched one and the
    new-callback throws, the exception leaves the constructor with the id
    used up and the entry already in its table, for an object that never
    came to be: the registry invariant is lost, and if the entry is in the
    active table [census] reads through a pointer to no object. *)
Theorem throwing_new_callback (t : pthread_t) (this : addr) (type : string)
    (m : memId) (s : State) :
  peekRef (perThreadId s) t = _newId s →
  _newCallback s (_newId s) = Throws →
  objects s !! this = None →
  ∃ s', Citizen_ctor t this type s = Throw s' ∧
        objects s' = objects s ∧
        (if peekRef (perThreadPersistFlag s) t
         then _persistentCitizens s' !! this = Some (_newId s, t)
         else _activeCitizens s' !! this = Some (_newId s, t)) ∧
        peekRef (perThreadId s') t = memId_wrap (_newId s + 1) ∧
        _newId s' = _newId s ∧
        fired s' = fired s ++ [NewHook (_newId s)] ∧
        ¬ registry_inv s' ∧
        (peekRef (perThreadPersistFlag s) t = false → census m s' = None).
Proof.
  intros Hcid Hcb Hfresh. exists (added t this s).
  assert (Hthrow : Citizen_ctor t this type s = Throw (added t this s)).
  { rewrite Citizen_ctor_unfold, _addCitizen_outcome, Hcid, N.eqb_refl.
    by rewrite (bool_decide_eq_true_2 _ Hcb). }
  destruct (added_tables t this s) as (Ha & Hp & Ho).
  rewrite registered_active in Ha. rewrite registered_persistent in Hp.
  assert (Htab : if peekRef (perThreadPersistFlag s) t
                 then _persistentCitizens (added t this s) !! this =
                        Some (_newId s, t)
                 else _activeCitizens (added t this s) !! this =
                        Some (_newId s, t)).
  { rewrite Ha, Hp, Hcid.
    destruct (peekRef (perThreadPersistFlag s) t); apply lookup_insert_eq. }
  split; [done|]. split; [done|]. split; [done|]. split.
  { by rewrite added_perThreadId, decide_True, Hcid. }
  split. { by rewrite added_newId, Hcid, N.eqb_refl, Hcb. }
  split. { by rewrite added_fired, Hcid, N.eqb_refl. }
  split.
  - intros Hinv. assert (is_Some (objects (added t this s) !! this)) as [x Hx].
    { apply registry_inv_registered_live; [done|].
      destruct (peekRef (perThreadPersistFlag s) t); [right|left];
        by eexists. }
    congruence.
  - intros Hflag. rewrite Hflag in Htab. unfold census.
    destruct (census_collect _ _ _) as [vec|] eqn:Hvec; [|done].
    destruct (census_collect_Some _ _ _ _ Hvec this) as [id Hid].
    { apply elem_of_table_iter. by eexists. }
    unfold idOf in Hid. by rewrite Ho, Hfresh in Hid.
Qed.

Lemma throwing_new_callback_witness :
  let s := exec (setNewCallback (λ _, Throws))
             (exec (setNewCallbackId 1) initial) in
  ∃ s', Citizen_ctor 7 100 "Shoe" s = Throw s' ∧
        _activeCitizens s' !! 100 = Some (1, 7) ∧
        objects s' !! 100 = None ∧
        census 0 s' = None.
Proof.
  intros s.
  destruct (throwing_new_callback 7 100 "Shoe" 0 s)
    as (s' & Hthrow & Hobj & Htab & _ & _ & _ & _ & Hcensus);
    [reflexivity..|].
  exists s'. split; [done|]. split; [exact Htab|].
  split; [by rewrite Hobj|]. by apply Hcensus.
Defined.

(** X10: a destructor that is left by an exception, whichever callback
    threw it, has erased nothing: both tables are as they were. *)
Theorem throwing_destructor_keeps_entry (this : addr) (s s' : State) :
  Citizen_dtor this s = Throw s' →
  _activeCitizens s' = _activeCitizens s ∧
  _persistentCitizens s' = _persistentCitizens s.
Proof.
  destruct (objects s !! this) as [o|] eqn:Ho.
  2:{ unfold Citizen_dtor, bind, dtor_watch, bind, deref. by rewrite Ho. }
  rewrite (Citizen_dtor_unfold _ _ _ Ho).
  pose proof (dtor_watch_unfold this s o Ho) as Hw.
  destruct (dtor_watch this s) as [[] s1|s1|] eqn:E; [| |done].
  - destruct (dtor_watch_returns _ _ _ _ Ho E) as (Ha & Hp & Hob).
    rewrite <- Ha, <- Hp. clear Hw E. unfold finished.
    destruct (negb (intact o) && _).
    { by intros [= <-]. }
    destruct (dangling this s1) eqn:Hd; [|done].
    destruct (_corruptionCallback s1 this _); [done|]. intros [= <-].
    apply bool_decide_eq_true in Hd as [Hna Hnp].
    unfold unregistered, erased, noting.
    destruct (intact o); simpl; rewrite Hna, !delete_id by done; done.
  - intros [= <-]. destruct (_ =? _); [|done].
    destruct (_deleteCallback s this o); [done|]. by injection Hw as ->.
Qed.

Lemma throwing_destructor_keeps_entry_witness :
  ∃ s1 s', scribble 100 0 shoe_built = Val () s1 ∧
           Citizen_dtor 100 s1 = Throw s' ∧
           _activeCitizens s' !! 100 = Some (1, 7).
Proof.
  eexists _, _. split; [reflexivity|].
  assert (Hthrow : Citizen_dtor 100 (exec (scribble 100 0) shoe_built) =
                   Throw (noting (CorruptionHook 100)
                            (exec (scribble 100 0) shoe_built)))
    by reflexivity.
  split; [exact Hthrow|].
  destruct (throwing_destructor_keeps_entry _ _ _ Hthrow) as (-> & _).
  reflexivity.
Defined.

(** ** Construction followed by destruction *)

(** X11: building an object at an unused address and destroying it again
    puts both tables and the set of live objects back as they were; all
    that is left is the id used up and the watched callbacks invoked (the
    new-callback if the id was the allocate watch, the delete-callback if
    it was the delete watch), and no corruption callback. *)
Theorem construct_destroy_round_trip (t : pthread_t) (this : addr)
    (type : string) (s : State) :
  let cid := peekRef (perThreadId s) t in
  _activeCitizens s !! this = None →
  _persistentCitizens s !! this = None →
  objects s !! this = None →
  _newCallback s cid ≠ Throws →
  (∀ o, _deleteCallback s this o ≠ Throws) →
  ∃ s1 s2, Citizen_ctor t this type s = Val () s1 ∧
           Citizen_dtor this s1 = Val () s2 ∧
           _activeCitizens s2 = _activeCitizens s ∧
           _persistentCitizens s2 = _persistentCitizens s ∧
           objects s2 = objects s ∧
           peekRef (perThreadId s2) t = memId_wrap (cid + 1) ∧
           fired s2 =
             fired s ++ (if cid =? _newId s then [NewHook cid] else []) ++
                        (if cid =? _deleteId s then [DeleteHook this] else []).
Proof.
  intros cid Hna Hnp Hfresh Hnew Hdel.
  destruct (Citizen_ctor_returns t this type s Hnew) as [Hctor _].
  set (o := mkCitizen (to_int magicSentinel) cid type).
  set (s1 := set_objects _ _) in Hctor.
  destruct (added_tables t this s) as (Ha & Hp & Hobj).
  rewrite registered_active in Ha. rewrite registered_persistent in Hp.
  pose proof (registered_frame t this s) as (_ & Hdid & _ & Hdcb & _ & _ & _).
  assert (Hdid1 : _deleteId s1 = _deleteId s).
  { unfold s1, added; simpl. destruct (_ =? _); [|done].
    by destruct (_newCallback s _). }
  assert (Hdcb1 : _deleteCallback s1 = _deleteCallback s).
  { unfold s1, added; simpl. destruct (_ =? _); [|done].
    by destruct (_newCallback s _). }
  assert (Ho1 : objects s1 !! this = Some o).
  { unfold s1; simpl. by rewrite lookup_insert_eq. }
  pose proof (dtor_watch_unfold this s1 o Ho1) as Hw.
  rewrite Hdid1, Hdcb1 in Hw. change (_CitizenId o) with cid in Hw.
  assert (Hwatch : ∃ s1',
    dtor_watch this s1 = Val () s1' ∧
    _activeCitizens s1' = _activeCitizens s1 ∧
    _persistentCitizens s1' = _persistentCitizens s1 ∧
    objects s1' = objects s1 ∧
    perThreadId s1' = perThreadId s1 ∧
    fired s1' = fired s1 ++
                (if cid =? _deleteId s then [DeleteHook this] else [])).
  { rewrite Hw. destruct (cid =? _deleteId s).
    - pose proof (Hdel o) as Hd. destruct (_deleteCallback s this o); [|done].
      by eexists.
    - eexists. by rewrite app_nil_r. }
  destruct Hwatch as (s1' & Hw' & Ha1 & Hp1 & Hob1 & Hid1 & Hf1).
  assert (Hreg : dangling this s1' = false).
  { apply bool_decide_eq_false. rewrite Ha1, Hp1. unfold s1; simpl.
    rewrite Ha, Hp. destruct (peekRef (perThreadPersistFlag s) t);
      rewrite lookup_insert_eq; by intros [? ?]. }
  assert (Hfin : finished this o s1' =
                 Val () (set_objects (delete this (objects s1'))
                           (unregistered this o s1'))).
  { unfold finished. by rewrite Hreg. }
  pose proof (finished_returns _ _ _ _ Hfin) as (Hf2 & Ha2 & Hp2 & Hob2).
  eexists s1, _. split; [done|]. split.
  { rewrite (Citizen_dtor_unfold _ _ _ Ho1), Hw'. exact Hfin. }
  assert (Hper : perThreadId (set_objects (delete this (objects s1'))
                                (unregistered this o s1')) = perThreadId s1').
  { unfold unregistered, erased, noting. by destruct (intact o). }
  rewrite Ha2, Hp2, Hob2, Hper, Hf2, Ha1, Hp1, Hob1, Hid1, Hf1.
  unfold finish_hooks. rewrite Hreg.
  unfold s1 at 1 2 3 4 5; simpl. rewrite Ha, Hp.
  split; [|split; [|split; [|split]]].
  - destruct (peekRef (perThreadPersistFlag s) t); [by apply delete_id|].
    by rewrite delete_insert_eq, delete_id.
  - destruct (peekRef (perThreadPersistFlag s) t).
    + by rewrite Hna, delete_insert_eq, delete_id.
    + by rewrite lookup_insert_eq.
  - by rewrite delete_insert_eq, delete_id.
  - by rewrite added_perThreadId, decide_True.
  - unfold s1; simpl. rewrite added_fired. fold cid.
    by rewrite app_nil_r, <- app_assoc.
Qed.

Lemma construct_destroy_round_trip_witness :
  ∃ s1 s2, Citizen_ctor 7 400 "Shoe" test_x_built = Val () s1 ∧
           Citizen_dtor 400 s1 = Val () s2 ∧
           _activeCitizens s2 = _activeCitizens test_x_built ∧
           objects s2 = objects test_x_built ∧
           fired s2 = [NewHook 2; DeleteHook 400].
Proof.
  destruct (construct_destroy_round_trip 7 400 "Shoe" test_x_built)
    as (s1 & s2 & H1 & H2 & Ha & _ & Ho & _ & Hf); [done..|].
  exists s1, s2. exact (conj H1 (conj H2 (conj Ha (conj Ho Hf)))).
Defined.

(** ** Watch ids and callback slots *)

(** X12: each of the five setters returns what was installed before and
    changes its own slot only, so installing the returned value again
    puts the state back exactly as it was. *)
Theorem setters_swap (s : State) (id : memId)
    (fnew : memId → CallbackResult)
    (fobj : addr → Citizen → CallbackResult) :
  (∃ s1, setNewCallbackId id s = Val (_newId s) s1 ∧ _newId s1 = id ∧
         setNewCallbackId (_newId s) s1 = Val id s) ∧
  (∃ s1, setDeleteCallbackId id s = Val (_deleteId s) s1 ∧
         _deleteId s1 = id ∧
         setDeleteCallbackId (_deleteId s) s1 = Val id s) ∧
  (∃ s1, setNewCallback fnew s = Val (_newCallback s) s1 ∧
         _newCallback s1 = fnew ∧
         setNewCallback (_newCallback s) s1 = Val fnew s) ∧
  (∃ s1, setDeleteCallback fobj s = Val (_deleteCallback s) s1 ∧
         _deleteCallback s1 = fobj ∧
         setDeleteCallback (_deleteCallback s) s1 = Val fobj s) ∧
  (∃ s1, setCorruptionCallback fobj s = Val (_corruptionCallback s) s1 ∧
         _corruptionCallback s1 = fobj ∧
         setCorruptionCallback (_corruptionCallback s) s1 = Val fobj s).
Proof.
  destruct s. repeat split; eexists; repeat split; reflexivity.
Qed.

(** X13: with [defaultNewCallback] installed a construction always
    returns, and one that takes the watched id leaves the watch on that
    id. *)
Theorem default_new_callback_rearms (t : pthread_t) (this : addr)
    (type : string) (s : State) :
  _newCallback s = defaultNewCallback →
  _newId s < memId_modulus →
  ∃ s', Citizen_ctor t this type s = Val () s' ∧
        _newId s' = _newId s ∧
        fired s' =
          fired s ++ (if peekRef (perThreadId s) t =? _newId s
                      then [NewHook (_newId s)] else []).
Proof.
  intros Hcb Hid.
  destruct (Citizen_ctor_returns t this type s) as [Hctor _].
  { by rewrite Hcb. }
  eexists. split; [exact Hctor|]. simpl.
  rewrite added_newId, added_fired, Hcb.
  destruct (N.eqb_spec (peekRef (perThreadId s) t) (_newId s)) as [->|Hne];
    [|done].
  split; [|done]. unfold defaultNewCallback, memId_wrap.
  rewrite N.add_0_r. by apply N.mod_small.
Qed.

Lemma default_new_callback_rearms_witness :
  ∃ s', Citizen_ctor 7 200 "Shoe" test_x_built = Val () s' ∧
        _newId s' = 2 ∧
        fired s' = [NewHook 2].
Proof.
  apply (default_new_callback_rearms 7 200 "Shoe" test_x_built).
  - reflexivity.
  - by vm_compute.
Defined.

(** X14: with the default delete and corruption callbacks installed, the
    destructor of a live object returns exactly when the sentinel is
    intact and the object is in one of the tables, and is otherwise left
    by the exception of [defaultCorruptionCallback]. *)
Theorem default_callbacks_destructor (this : addr) (s : State) (o : Citizen) :
  objects s !! this = Some o →
  _deleteCallback s = defaultDeleteCallback →
  _corruptionCallback s = defaultCorruptionCallback →
  if bool_decide (_sentinel o = to_int magicSentinel ∧
                  (is_Some (_activeCitizens s !! this) ∨
                   is_Some (_persistentCitizens s !! this)))
  then ∃ s', Citizen_dtor this s = Val () s' ∧
             fired s' = fired s ++ (if _CitizenId o =? _deleteId s
                                    then [DeleteHook this] else [])
  else ∃ s', Citizen_dtor this s = Throw s' ∧
             fired s' = fired s ++ (if _CitizenId o =? _deleteId s
                                    then [DeleteHook this] else [])
                                ++ [CorruptionHook this].
Proof.
  intros Ho Hdel Hcor.
  rewrite (Citizen_dtor_unfold _ _ _ Ho), (dtor_watch_unfold _ _ _ Ho), Hdel.
  set (hooks := if _CitizenId o =? _deleteId s then [DeleteHook this] else []).
  assert (Hs1 : ∃ s1,
    (if _CitizenId o =? _deleteId s
     then match defaultDeleteCallback this o with
          | Returns d =>
              Val () (set_deleteId (memId_wrap (_deleteId s + d))
                        (noting (DeleteHook this) s))
          | Throws => Throw (noting (DeleteHook this) s)
          end
     else Val () s) = Val () s1 ∧
    fired s1 = fired s ++ hooks ∧
    _corruptionCallback s1 = _corruptionCallback s ∧
    dangling this s1 = dangling this s).
  { unfold hooks. destruct (_ =? _); eexists; (split; [reflexivity|]).
    - done.
    - by rewrite app_nil_r. }
  destruct Hs1 as (s1 & -> & Hf1 & Hc1 & Hd1).
  unfold finished. rewrite Hc1, Hcor, Hd1.
  change (bool_decide (defaultCorruptionCallback this o = Throws)) with true.
  unfold defaultCorruptionCallback. rewrite andb_true_r.
  assert (Hdang : dangling this s = false ↔
                  is_Some (_activeCitizens s !! this) ∨
                  is_Some (_persistentCitizens s !! this)).
  { unfold dangling. rewrite bool_decide_eq_false, <- !not_eq_None_Some.
    destruct (_activeCitizens s !! this), (_persistentCitizens s !! this);
      intuition (try done; try congruence). }
  assert (Hint : intact o = true ↔ _sentinel o = to_int magicSentinel).
  { unfold intact. apply bool_decide_eq_true. }
  case_bool_decide as Hok.
  - destruct Hok as [Hi%Hint Hr%Hdang]. rewrite Hi, Hr. simpl.
    eexists. split; [reflexivity|].
    unfold unregistered, erased, noting. rewrite Hi. simpl. by rewrite Hf1.
  - destruct (intact o) eqn:Hi; simpl.
    + destruct (dangling this s) eqn:Hd.
      * eexists. split; [reflexivity|].
        unfold unregistered, erased, noting. rewrite Hi. simpl.
        by rewrite Hf1, app_assoc.
      * destruct Hok. split; [by apply Hint|by apply Hdang].
    + eexists. split; [reflexivity|]. simpl. by rewrite Hf1, app_assoc.
Qed.

Lemma default_callbacks_destructor_witness :
  ∃ s', Citizen_dtor 100 shoe_built = Val () s' ∧
        fired s' = fired shoe_built ++ [].
Proof.
  exact (default_callbacks_destructor 100 shoe_built shoe
           eq_refl eq_refl eq_refl).
Defined.

(** ** More on the census *)

(** X15: raising [startingMemId] can only shorten the census and lower
    the count: every object listed from the higher id is listed from the
    lower one. *)
Theorem census_antitone (m m' : memId) (s : State) :
  active_live s →
  (Z.of_nat (size (_activeCitizens s)) ≤ INT_MAX)%Z →
  m ≤ m' →
  ∃ l l' n n',
    census m s = Some l ∧ census m' s = Some l' ∧ l' ⊆ l ∧
    countCitizens m s = Some n ∧ countCitizens m' s = Some n' ∧ n' ≤ n.
Proof.
  intros Hlive Hsize Hle.
  assert (Hsub : census_vec s m' ⊆ census_vec s m).
  { intros c. rewrite !elem_of_census_vec.
    intros [Hc (id & Hid & ?)]. split; [done|]. exists id. split; [done|lia]. }
  exists (std_sort (cmpId s) (census_vec s m)),
    (std_sort (cmpId s) (census_vec s m')),
    (N.of_nat (length (census_vec s m))),
    (N.of_nat (length (census_vec s m'))).
  split; [by apply census_eq|]. split; [by apply census_eq|]. split.
  { intros c. rewrite !std_sort_Permutation. apply Hsub. }
  split; [by apply countCitizens_eq|]. split; [by apply countCitizens_eq|].
  assert (length (census_vec s m') ≤ length (census_vec s m))%nat; [|lia].
  apply submseteq_length, NoDup_submseteq; [apply NoDup_census_vec|done].
Qed.

Lemma census_antitone_witness :
  ∃ l l' n n',
    census 2 test_after_foo = Some l ∧ census 3 test_after_foo = Some l' ∧
    l' ⊆ l ∧
    countCitizens 2 test_after_foo = Some n ∧
    countCitizens 3 test_after_foo = Some n' ∧ n' ≤ n.
Proof.
  apply (census_antitone 2 3 test_after_foo).
  - intros c. apply registry_inv_live, test_after_foo_inv.
  - by vm_compute.
  - by vm_compute.
Defined.

(** ** What the operations leave alone *)

(** X16: no operation on the registry writes to another live object: an
    object that is live before and after a step has the id, the type name
    and the sentinel it had. *)
Theorem live_objects_are_not_written (s s' : State) (p : addr)
    (o o' : Citizen) :
  step s s' →
  objects s !! p = Some o →
  objects s' !! p = Some o' →
  o' = o.
Proof.
  intros Hstep Ho Ho'.
  assert (Hctor : ∀ t this type,
    objects s !! this = None → Citizen_ctor t this type s = Val () s' → o' = o).
  { intros t this type Hfresh ->%Citizen_ctor_Val. simpl in Ho'.
    rewrite lookup_insert_ne in Ho' by congruence. congruence. }
  destruct Hstep as [t this type Hfresh H|t this citizen Hfresh H
                    |this Hlive H|this H].
  - by eapply Hctor.
  - apply Citizen_copy_ctor_as_ctor in H as [type H]. by eapply Hctor.
  - rewrite markPersistent_unfold in H. injection H as <-. simpl in Ho'.
    congruence.
  - apply Citizen_dtor_returns in H as (_ & _ & _ & Hobj).
    rewrite Hobj in Ho'. apply lookup_delete_Some in Ho' as [_ Ho'].
    congruence.
Qed.

Lemma live_objects_are_not_written_witness :
  step test_in_foo test_after_foo ∧
  objects test_in_foo !! 100 = Some shoe ∧
  objects test_after_foo !! 100 = Some shoe ∧
  shoe = shoe.
Proof.
  assert (Hstep : step test_in_foo test_after_foo).
  { by apply (step_dtor _ _ 400). }
  assert (Ho : objects test_in_foo !! 100 = Some shoe) by reflexivity.
  assert (Ho' : objects test_after_foo !! 100 = Some shoe) by reflexivity.
  split; [exact Hstep|]. split; [exact Ho|]. split; [exact Ho'|].
  exact (live_objects_are_not_written _ _ 100 shoe shoe Hstep Ho Ho').
Defined.

Lemma registry_inv_step s s' : registry_inv s → step s s' → registry_inv s'.
Proof.
  intros Hinv [t this type Hfresh H|t this citizen Hfresh H
              |this Hlive H|this H].
  - by eapply registry_inv_ctor.
  - apply Citizen_copy_ctor_as_ctor in H as [type H].
    by eapply registry_inv_ctor.
  - by eapply registry_inv_markPersistent.
  - by eapply registry_inv_dtor.
Qed.

(** X17: nothing moves an object back from the persistent table: an
    object that is persistent before a step and live after it is still
    persistent, and not active. *)
Theorem persistent_stays_persistent (s s' : State) (p : addr) :
  registry_inv s →
  step s s' →
  is_Some (_persistentCitizens s !! p) →
  is_Some (objects s' !! p) →
  is_Some (_persistentCitizens s' !! p) ∧ _activeCitizens s' !! p = None.
Proof.
  intros Hinv Hstep Hper Hlive'.
  pose proof (registry_inv_step s s' Hinv Hstep) as Hinv'.
  assert (Hper' : is_Some (_persistentCitizens s' !! p)).
  { assert (Hctor : ∀ t this type,
      Citizen_ctor t this type s = Val () s' →
      is_Some (_persistentCitizens s' !! p)).
    { intros t this type [Htab _]%Citizen_ctor_tables.
      destruct (peekRef (perThreadPersistFlag s) t);
        destruct Htab as [E1 E2]; rewrite ?E1, ?E2; [|done].
      destruct (decide (this = p)) as [->|Hne].
      - rewrite lookup_insert_eq. by eexists.
      - by rewrite lookup_insert_ne. }
    destruct Hstep as [t this type Hfresh H|t this citizen Hfresh H
                      |this Hlive H|this H].
    - by eapply Hctor.
    - apply Citizen_copy_ctor_as_ctor in H as [type H]. by eapply Hctor.
    - rewrite markPersistent_unfold in H. injection H as <-. simpl.
      destruct (decide (this = p)) as [->|Hne].
      + rewrite lookup_insert_eq. by eexists.
      + by rewrite lookup_insert_ne.
    - apply Citizen_dtor_returns in H as (_ & _ & Hp & Hobj).
      rewrite Hobj in Hlive'. destruct Hlive' as [x Hx].
      apply lookup_delete_Some in Hx as [Hne _]. rewrite Hp.
      destruct (_activeCitizens s !! this); [done|].
      by rewrite lookup_delete_ne. }
  split; [done|].
  pose proof (proj1 (registry_inv_pointwise s') Hinv' p) as Hpt.
  destruct Hlive' as [x Hx]. rewrite Hx in Hpt.
  destruct Hpt as [[_ Hnone]|[Hnone _]]; [|done].
  destruct Hper' as [y Hy]. congruence.
Qed.

Lemma persistent_stays_persistent_witness :
  is_Some (_persistentCitizens (exec (markPersistent 100) test_x_persistent)
             !! 100) ∧
  _activeCitizens (exec (markPersistent 100) test_x_persistent) !! 100 = None.
Proof.
  apply (persistent_stays_persistent test_x_persistent).
  - apply (bool_decide_unpack _). by vm_compute.
  - by apply (step_markPersistent _ _ 100).
  - by eexists.
  - by eexists.
Defined.

(** X18: the id recorded in the active table for an object is the id the
    object carries, [getId()], and every operation keeps it so. *)
Theorem info_agrees_step (s s' : State) :
  registry_inv s →
  info_agrees s →
  step s s' →
  info_agrees s'.
Proof.
  intros Hinv Hagree Hstep p id t0 o Hact Hobj.
  assert (Hctor : ∀ t this type,
    objects s !! this = None →
    Citizen_ctor t this type s = Val () s' → _CitizenId o = id).
  { intros t this type Hfresh H.
    pose proof (Citizen_ctor_tables _ _ _ _ _ H) as [Htab _].
    apply Citizen_ctor_Val in H. subst s'. simpl in Hobj.
    assert (Hna : _activeCitizens s !! this = None).
    { destruct (_activeCitizens s !! this) eqn:E; [|done].
      destruct (registry_inv_live s this Hinv) as [x Hx]; [by eexists|].
      congruence. }
    destruct (decide (p = this)) as [->|Hne].
    - rewrite lookup_insert_eq in Hobj. injection Hobj as <-. simpl.
      destruct (peekRef (perThreadPersistFlag s) t);
        destruct Htab as [E1 E2].
      + rewrite E2 in Hact. congruence.
      + rewrite E1, lookup_insert_eq in Hact. congruence.
    - rewrite lookup_insert_ne in Hobj by done.
      apply (Hagree p id t0 o); [|done].
      destruct (peekRef (perThreadPersistFlag s) t);
        destruct Htab as [E1 E2].
      + by rewrite <- E2.
      + by rewrite E1, lookup_insert_ne in Hact. }
  destruct Hstep as [t this type Hfresh H|t this citizen Hfresh H
                    |this Hlive H|this H].
  - by eapply Hctor.
  - apply Citizen_copy_ctor_as_ctor in H as [type H]. by eapply Hctor.
  - rewrite markPersistent_unfold in H. injection H as <-. simpl in *.
    apply lookup_delete_Some in Hact as [_ Hact]. by eapply Hagree.
  - apply Citizen_dtor_returns in H as (_ & Ha & _ & Ho).
    rewrite Ha in Hact. rewrite Ho in Hobj.
    apply lookup_delete_Some in Hact as [_ Hact].
    apply lookup_delete_Some in Hobj as [_ Hobj]. by eapply Hagree.
Qed.

Lemma info_agrees_initial : info_agrees initial.
Proof.
  intros p id t o H. unfold initial in H; simpl in H.
  by rewrite lookup_empty in H.
Qed.

Lemma info_agrees_step_witness : info_agrees shoe_built.
Proof.
  apply (info_agrees_step initial shoe_built).
  - apply registry_inv_initial.
  - apply info_agrees_initial.
  - by apply (step_ctor _ _ 7 100 "Shoe").
Defined.

(** ** Destruction under callbacks that return *)

(** X19: when the delete and corruption callbacks return for it, the
    destructor of a live object returns and leaves the object in neither
    table, also when the sentinel is broken; what it has invoked is, in
    this order, the delete-callback if the id is the delete watch, the
    corruption callback if the sentinel is broken, and the corruption
    callback if the object was in neither table. *)
Theorem destructor_trace (this : addr) (s : State) (o : Citizen) :
  objects s !! this = Some o →
  (∀ o', _deleteCallback s this o' ≠ Throws) →
  (∀ o', _corruptionCallback s this o' ≠ Throws) →
  _activeCitizens s !! this = None ∨ _persistentCitizens s !! this = None →
  ∃ s', Citizen_dtor this s = Val () s' ∧
        _activeCitizens s' !! this = None ∧
        _persistentCitizens s' !! this = None ∧
        objects s' = delete this (objects s) ∧
        fired s' =
          fired s ++
          (if _CitizenId o =? _deleteId s then [DeleteHook this] else []) ++
          (if bool_decide (_sentinel o = to_int magicSentinel) then []
           else [CorruptionHook this]) ++
          (if bool_decide (_activeCitizens s !! this = None ∧
                           _persistentCitizens s !! this = None)
           then [CorruptionHook this] else []).
Proof.
  intros Ho Hdel Hcor Hone.
  destruct (Citizen_dtor_total this s o Ho Hdel Hcor) as [s' Hdtor].
  exists s'. split; [done|].
  pose proof (Citizen_dtor_returns _ _ _ Hdtor) as (_ & Ha & Hp & Hobj).
  split; [by rewrite Ha, lookup_delete_eq|]. split.
  { rewrite Hp. destruct (_activeCitizens s !! this) eqn:E.
    - by destruct Hone.
    - apply lookup_delete_eq. }
  split; [done|].
  rewrite (Citizen_dtor_unfold _ _ _ Ho), (dtor_watch_unfold _ _ _ Ho) in Hdtor.
  assert (Hfin : ∀ s1 hooks,
    _activeCitizens s1 = _activeCitizens s →
    _persistentCitizens s1 = _persistentCitizens s →
    fired s1 = fired s ++ hooks →
    finished this o s1 = Val () s' →
    fired s' = fired s ++ hooks ++ finish_hooks this o s).
  { intros s1 hooks Ha1 Hp1 Hf1 Hfin.
    apply finished_returns in Hfin as (-> & _).
    rewrite Hf1, <- app_assoc. do 2 f_equal.
    unfold finish_hooks, dangling. by rewrite Ha1, Hp1. }
  destruct (_ =? _).
  - pose proof (Hdel o) as Hd.
    destruct (_deleteCallback s this o); [|done].
    by apply (Hfin _ [DeleteHook this]) in Hdtor.
  - apply (Hfin _ []) in Hdtor; [done..|]. by rewrite app_nil_r.
Qed.

Lemma destructor_trace_witness :
  ∃ s', Citizen_dtor 100 shoe_scribbled_recording = Val () s' ∧
        _activeCitizens s' !! 100 = None ∧
        _persistentCitizens s' !! 100 = None ∧
        fired s' = [CorruptionHook 100].
Proof.
  destruct (destructor_trace 100 shoe_scribbled_recording
              (set_sentinel (to_int 0) shoe))
    as (s' & H1 & H2 & H3 & _ & H5); [done..|by right|].
  exists s'. exact (conj H1 (conj H2 (conj H3 H5))).
Defined.
